(** * ultimatepython/classes/iterator_class.py

    A shallow embedding of the depth-first traversal of the employee
    graph, in its two realisations: the class [EmployeeIterator] (the
    caller calls [__next__]) and the generator function
    [employee_generator] (the consumer pulls, the body suspends at
    [yield]).

    Python objects are mutable and may refer to themselves
    ([hacker.direct_reports.append(hacker)] in [main]), so an employee
    is not a Rocq tree: employees live in an object store and refer to
    one another by reference. *)

From stdpp Require Import gmap strings list fin_maps fin_sets relations.

#[local] Set Warnings "-clear-no-such-hyp,-register-all".

(** * Part I: the program *)

(** ** Objects *)

(** A reference to an object (its identity, [id(obj)] in Python). *)
Abbreviation ref := nat (only parsing).

(** [class Employee]: the three attributes set by [Employee.__init__].
    [direct_reports] holds references: order matters, an entry may
    repeat, and it may point back to the employee itself. *)
Record Employee := {
  name : string;
  title : string;
  direct_reports : list ref;
}.

(** The employees allocated so far, by reference. *)
Abbreviation heap := (gmap nat Employee) (only parsing).

(** ** Exceptions *)

(** The exception classes the module meets: Python's own hierarchy above
    [RuntimeError], [StopIteration] and [IndexError], and the module's
    [class IterationError(RuntimeError)]. *)
Inductive exc_class :=
  | BaseException
  | Exception
  | RuntimeError
  | StopIteration
  | LookupError
  | IndexError
  | IterationError.

Global Instance exc_class_eq_dec : EqDecision exc_class.
Proof. solve_decision. Defined.

(** The base class written in each [class] statement
    ([class IterationError(RuntimeError)]). *)
Definition base_class (c : exc_class) : option exc_class :=
  match c with
  | BaseException => None
  | Exception => Some BaseException
  | RuntimeError => Some Exception
  | StopIteration => Some Exception
  | LookupError => Some Exception
  | IndexError => Some LookupError
  | IterationError => Some RuntimeError
  end.

(** [issubclass c d], walking up the base classes; the hierarchy is at
    most four links deep, so [depth] links are enough. *)
Fixpoint issubclass_upto (depth : nat) (c d : exc_class) : bool :=
  if decide (c = d) then true
  else match depth with
       | 0 => false
       | S k => match base_class c with
                | Some b => issubclass_upto k b d
                | None => false
                end
       end.

Definition issubclass (c d : exc_class) : bool := issubclass_upto 4 c d.

(** An exception instance: its class and the arguments it was built with. *)
Record exn := {
  exn_class : exc_class;
  exn_args : list string;
}.

Global Instance exn_eq_dec : EqDecision exn.
Proof. solve_decision. Defined.

Definition isinstance (e : exn) (c : exc_class) : bool :=
  issubclass (exn_class e) c.

(** [except c:] handles [e] exactly when [e] is an instance of [c]. *)
Definition handler_catches (c : exc_class) (e : exn) : bool := isinstance e c.

(** [raise StopIteration]: the class is instantiated with no argument. *)
Definition stop_iteration : exn :=
  {| exn_class := StopIteration; exn_args := [] |}.

(** [IterationError("Cyclic loop detected")]. *)
Definition cyclic_loop_detected : exn :=
  {| exn_class := IterationError; exn_args := ["Cyclic loop detected"%string] |}.

(** What [[].pop()] raises. *)
Definition pop_from_empty_list : exn :=
  {| exn_class := IndexError; exn_args := ["pop from empty list"%string] |}.

(** How a call ends: it returns (or yields) a value, or raises. *)
Inductive outcome (A : Type) :=
  | Return (a : A)
  | Raise (e : exn).
Arguments Return {A} a.
Arguments Raise {A} e.

(** ** Python lists used as stacks *)

(** [l.pop()]: removes and returns the last item; [None] on an empty list
    (where Python raises [IndexError]). *)
Definition pop {A : Type} (l : list A) : option (list A * A) :=
  match reverse l with
  | [] => None
  | x :: r => Some (reverse r, x)
  end.

(** [l.append(x)]. *)
Definition append {A : Type} (l : list A) (x : A) : list A := l ++ [x].

(** [for report in reports: to_visit.append(report)]. *)
Definition append_all {A : Type} (to_visit reports : list A) : list A :=
  foldl append to_visit reports.

(** ** The iterator class *)

Module EmployeeIterator.

(** The attributes of an instance, by value. *)
Record t := {
  employees_to_visit : list ref;
  employees_visited : gset string;
}.

(** [EmployeeIterator(employee)]. *)
Definition __init__ (employee : ref) : t :=
  {| employees_to_visit := [employee]; employees_visited := ∅ |}.

(** [__iter__]: the iterator is its own iterator. *)
Definition __iter__ (self : t) : t := self.

(** [__next__]: how the call ends and the instance after it. The result is
    [None] only when the popped reference is not allocated in [h], which
    no Python program can bring about. *)
Definition __next__ (h : heap) (self : t) : option (outcome ref * t) :=
  match employees_to_visit self with
  | [] => Some (Raise stop_iteration, self)
  | _ :: _ =>
    match pop (employees_to_visit self) with
    | None => Some (Raise pop_from_empty_list, self)
    | Some (rest, employee) =>
      let popped :=
        {| employees_to_visit := rest;
           employees_visited := employees_visited self |} in
      match h !! employee with
      | None => None
      | Some e =>
        if decide (name e ∈ employees_visited self)
        then Some (Raise cyclic_loop_detected, popped)
        else Some (Return employee,
                   {| employees_to_visit := append_all rest (direct_reports e);
                      employees_visited := employees_visited self ∪ {[name e]} |})
      end
    end
  end.

End EmployeeIterator.

(** ** Instances in the object store *)

(** [EmployeeIterator.t] holds an instance's attributes by value. In
    Python the two attributes are references to a list object and a set
    object, which [__next__] mutates in place. This module keeps those
    objects in a store, so that what two instances share, if anything, is
    what their attributes refer to. *)
Module Instance.

(** The list objects and the set objects allocated so far. *)
Record store := {
  lists : gmap nat (list ref);
  sets : gmap nat (gset string);
}.

(** An instance: each attribute refers to an object of the store. *)
Record obj := {
  employees_to_visit : nat;
  employees_visited : nat;
}.

(** [__init__]: [[employee]] is a new list object and [set()] a new set
    object. *)
Definition __init__ (σ : store) (employee : ref) : obj * store :=
  let l := fresh (dom (lists σ)) in
  let s := fresh (dom (sets σ)) in
  ({| employees_to_visit := l; employees_visited := s |},
   {| lists := <[l := [employee]]> (lists σ);
      sets := <[s := ∅]> (sets σ) |}).

(** [__next__], statement by statement: [pop] and [append] write to the
    list object, [add] writes to the set object. *)
Definition __next__ (h : heap) (σ : store) (self : obj)
    : option (outcome ref * store) :=
  to_visit ← lists σ !! employees_to_visit self;
  visited ← sets σ !! employees_visited self;
  match to_visit with
  | [] => Some (Raise stop_iteration, σ)
  | _ :: _ =>
    match pop to_visit with
    | None => Some (Raise pop_from_empty_list, σ)
    | Some (rest, employee) =>
      let σ1 := {| lists := <[employees_to_visit self := rest]> (lists σ);
                   sets := sets σ |} in
      e ← h !! employee;
      if decide (name e ∈ visited)
      then Some (Raise cyclic_loop_detected, σ1)
      else
        let σ2 := {| lists := lists σ1;
                     sets := <[employees_visited self :=
                                 visited ∪ {[name e]}]> (sets σ1) |} in
        Some (Return employee,
              {| lists := <[employees_to_visit self :=
                              append_all rest (direct_reports e)]> (lists σ2);
                 sets := sets σ2 |})
    end
  end.

(** The attributes of an instance, read from the store. *)
Definition view (σ : store) (self : obj) : option EmployeeIterator.t :=
  to_visit ← lists σ !! employees_to_visit self;
  visited ← sets σ !! employees_visited self;
  Some {| EmployeeIterator.employees_to_visit := to_visit;
          EmployeeIterator.employees_visited := visited |}.

(** Two instances that share neither their list nor their set. *)
Definition separate (c1 c2 : obj) : Prop :=
  employees_to_visit c1 ≠ employees_to_visit c2
  ∧ employees_visited c1 ≠ employees_visited c2.

(** A caller with two instances [c1] and [c2] advances one or the other
    as [sched] says ([true]: [c1]); the log keeps which was advanced and
    how the call ended. *)
Fixpoint interleave (h : heap) (σ : store) (c1 c2 : obj) (sched : list bool)
    : list (bool * option (outcome ref)) :=
  match sched with
  | [] => []
  | b :: sched' =>
    match __next__ h σ (if b then c1 else c2) with
    | None => (b, None) :: interleave h σ c1 c2 sched'
    | Some (o, σ') => (b, Some o) :: interleave h σ' c1 c2 sched'
    end
  end.

(** What the log says of one of the two instances. *)
Definition results (b : bool) (log : list (bool * option (outcome ref)))
    : list (option (outcome ref)) :=
  (filter (λ p, p.1 = b) log).*2.

(** How often [sched] advances that instance. *)
Definition turns (b : bool) (sched : list bool) : nat :=
  length (filter (λ b', b' = b) sched).

End Instance.

(** ** The generator function *)

(** A generator object made by [employee_generator]: not yet started (it
    holds its argument only), suspended at the [yield] with its two
    locals, or finished (it returned or raised). *)
Inductive generator :=
  | GenCreated (top_employee : ref)
  | GenSuspended (to_visit : list ref) (visited : gset string)
  | GenFinished.

(** Calling the generator function runs none of its body. *)
Definition employee_generator (top_employee : ref) : generator :=
  GenCreated top_employee.

(** The body from the [while] test to the next [yield], [raise] or the end
    of the function. *)
Definition generator_resume (h : heap) (to_visit : list ref)
    (visited : gset string) : option (outcome ref * generator) :=
  if decide (0 < length to_visit) then
    match pop to_visit with
    | None => Some (Raise pop_from_empty_list, GenFinished)
    | Some (rest, employee) =>
      match h !! employee with
      | None => None
      | Some e =>
        if decide (name e ∈ visited)
        then Some (Raise cyclic_loop_detected, GenFinished)
        else Some (Return employee,
                   GenSuspended (append_all rest (direct_reports e))
                                (visited ∪ {[name e]}))
      end
    end
  else Some (Raise stop_iteration, GenFinished).

(** [next(g)] on a generator object. *)
Definition generator_next (h : heap) (g : generator)
    : option (outcome ref * generator) :=
  match g with
  | GenCreated top_employee => generator_resume h [top_employee] ∅
  | GenSuspended to_visit visited => generator_resume h to_visit visited
  | GenFinished => Some (Raise stop_iteration, GenFinished)
  end.

(** ** The iterator protocol and its consumers *)

(** What [next(it)] does for an object of type [S]. *)
Class Iterator (S : Type) := next : heap → S → option (outcome ref * S).

Global Instance EmployeeIterator_Iterator : Iterator EmployeeIterator.t :=
  EmployeeIterator.__next__.

Global Instance generator_Iterator : Iterator generator := generator_next.

(** How consuming an iterator ended: it was exhausted ([StopIteration],
    which the consuming loop swallows), an exception went on to the caller,
    a reference was not allocated, or the bound on pulls was reached. *)
Inductive ending :=
  | Exhausted
  | Propagated (e : exn)
  | Unallocated
  | OutOfFuel.

(** [for emp in it] / [list(it)]: pull until [StopIteration]; the items
    delivered, in order, and how the loop ended. *)
Fixpoint consume {S : Type} `{Iterator S} (h : heap) (fuel : nat) (s : S)
    : list ref * ending :=
  match fuel with
  | 0 => ([], OutOfFuel)
  | S fuel' =>
    match next h s with
    | None => ([], Unallocated)
    | Some (Return x, s') =>
      let '(xs, e) := consume h fuel' s' in (x :: xs, e)
    | Some (Raise e, _) =>
      if isinstance e StopIteration then ([], Exhausted)
      else ([], Propagated e)
    end
  end.

(** [list(it)], with as many pulls as the store has employees, and one
    more for the end ([to_list_iterator_terminates] below: that is
    always enough). *)
Definition to_list {S : Type} `{Iterator S} (h : heap) (s : S)
    : list ref * ending :=
  consume h (Datatypes.S (size h)) s.

(** The outcomes of [n] successive calls of [next], whatever they are: the
    caller goes on calling after an exception too. *)
Fixpoint pulls {S : Type} `{Iterator S} (h : heap) (n : nat) (s : S)
    : list (option (outcome ref)) :=
  match n with
  | 0 => []
  | S n' =>
    match next h s with
    | None => None :: pulls h n' s
    | Some (o, s') => Some o :: pulls h n' s'
    end
  end.

(** * Part II: the vocabulary of the claims *)

(** ** Graphs in the store *)

(** [b] is a direct report of [a]. *)
Definition edge (h : heap) (a b : ref) : Prop :=
  ∃ e, h !! a = Some e ∧ b ∈ direct_reports e.

(** Every reference held by an employee is allocated. *)
Definition closed (h : heap) : Prop :=
  map_Forall (λ _ e, Forall (λ r, is_Some (h !! r)) (direct_reports e)) h.

Global Instance closed_dec (h : heap) : Decision (closed h).
Proof. unfold closed. apply _. Defined.

Definition reachable (h : heap) (root : ref) (a : ref) : Prop :=
  rtc (edge h) root a.

(** No employee reachable from [root] reports, directly or not, to itself. *)
Definition acyclic_from (h : heap) (root : ref) : Prop :=
  ∀ a, reachable h root a → ¬ tc (edge h) a a.

Definition cyclic_from (h : heap) (root : ref) : Prop :=
  ∃ a, reachable h root a ∧ tc (edge h) a a.

Definition allocated (h : heap) (s : list ref) : Prop :=
  Forall (λ r, is_Some (h !! r)) s.

(** ** Finite unfoldings *)

(** What the graph below an employee looks like when every reference is
    followed: a finite tree of references. A shared employee occurs once
    per path to it; a cycle has no finite unfolding. *)
Inductive tree :=
  | Node (x : ref) (children : list tree).

(** The order of the traversal on a tree: the root, then the subtrees from
    the last child to the first. *)
Fixpoint order (t : tree) : list ref :=
  match t with
  | Node x children => x :: concat (reverse (map order children))
  end.

(** The same for a stack of trees, the top of the stack being its last
    item. *)
Definition order_forest (ts : list tree) : list ref :=
  concat (reverse (map order ts)).

(** [t] is the unfolding of the store below [x]. *)
Inductive unfolds (h : heap) : ref → tree → Prop :=
  | unfolds_Node (x : ref) (e : Employee) (ts : list tree) :
      h !! x = Some e →
      Forall2 (unfolds h) (direct_reports e) ts →
      unfolds h x (Node x ts).

(** The names the references of a list bear in the store. *)
Definition names (h : heap) (l : list ref) : list (option string) :=
  (λ x, name <$> h !! x) <$> l.

(** ** The two realisations, state by state *)

(** The generator object [g] stands where the iterator instance [it]
    stands: same stack and same visited names, a generator not yet
    started standing for a freshly built instance. *)
Definition same_state (it : EmployeeIterator.t) (g : generator) : Prop :=
  g = GenSuspended (EmployeeIterator.employees_to_visit it)
                   (EmployeeIterator.employees_visited it)
  ∨ ∃ root, it = EmployeeIterator.__init__ root ∧ g = GenCreated root.

(** Two steps agree: same outcome, and after a delivered item the states
    still correspond. *)
Definition same_step (a : option (outcome ref * EmployeeIterator.t))
    (b : option (outcome ref * generator)) : Prop :=
  match a, b with
  | None, None => True
  | Some (Return x, it'), Some (Return y, g') => x = y ∧ same_state it' g'
  | Some (Raise e, _), Some (Raise e', _) => e = e'
  | _, _ => False
  end.

(** ** The measure that bounds the pulls *)

(** The employees whose name has not been visited yet: each delivered
    item takes at least one of them away. *)
Definition unvisited (h : heap) (visited : gset string) : gset nat :=
  dom (filter (λ kv, name kv.2 ∉ visited) h).

(** ** Example stores *)

(** The example of [main]: a manager with two direct reports. *)
Definition main_heap : heap :=
  <[0 := {| name := "Max Doe"; title := "Engineering Manager";
            direct_reports := [1; 2] |}]>
  (<[1 := {| name := "John Doe"; title := "Software Engineer";
             direct_reports := [] |}]>
  (<[2 := {| name := "Jane Doe"; title := "Software Engineer";
             direct_reports := [] |}]> ∅)).

(** [main]'s hacker, who reports to themself. *)
Definition hacker_heap : heap :=
  <[0 := {| name := "Unknown"; title := "Hacker"; direct_reports := [0] |}]> ∅.

(** A manager whose direct reports are John Doe and the manager again. *)
Definition returning_heap : heap :=
  <[0 := {| name := "Max Doe"; title := "Engineering Manager";
            direct_reports := [1; 0] |}]>
  (<[1 := {| name := "John Doe"; title := "Software Engineer";
             direct_reports := [] |}]> ∅).

(** A manager with two direct reports who are both called John Doe. *)
Definition namesake_heap : heap :=
  <[0 := {| name := "Max Doe"; title := "Engineering Manager";
            direct_reports := [1; 2] |}]>
  (<[1 := {| name := "John Doe"; title := "Software Engineer";
             direct_reports := [] |}]>
  (<[2 := {| name := "John Doe"; title := "Software Tester";
             direct_reports := [] |}]> ∅)).

(** Two employees of the same name who report to each other. *)
Definition namesake_cycle_heap : heap :=
  <[0 := {| name := "Alex Doe"; title := "Engineering Manager";
            direct_reports := [1] |}]>
  (<[1 := {| name := "Alex Doe"; title := "Software Engineer";
             direct_reports := [0] |}]> ∅).

(** An employee and their manager: [0] is over [1], who has [0] as a
    direct report in turn. *)
Definition indirect_cycle_heap : heap :=
  <[0 := {| name := "Max Doe"; title := "Engineering Manager";
            direct_reports := [1] |}]>
  (<[1 := {| name := "John Doe"; title := "Software Engineer";
             direct_reports := [0] |}]> ∅).

(** The hacker of [main] with a second direct report behind them. *)
Definition hacker_and_friend_heap : heap :=
  <[0 := {| name := "Unknown"; title := "Hacker"; direct_reports := [0; 1] |}]>
  (<[1 := {| name := "Friend"; title := "Hacker"; direct_reports := [] |}]> ∅).

(** A manager whose two direct reports share one direct report. *)
Definition diamond_heap : heap :=
  <[0 := {| name := "Max Doe"; title := "Engineering Manager";
            direct_reports := [1; 2] |}]>
  (<[1 := {| name := "John Doe"; title := "Team Lead";
             direct_reports := [3] |}]>
  (<[2 := {| name := "Jane Doe"; title := "Team Lead";
             direct_reports := [3] |}]>
  (<[3 := {| name := "Sam Doe"; title := "Software Engineer";
             direct_reports := [] |}]> ∅))).

(** A manager who lists the same direct report twice. *)
Definition listed_twice_heap : heap :=
  <[0 := {| name := "Max Doe"; title := "Engineering Manager";
            direct_reports := [1; 1] |}]>
  (<[1 := {| name := "John Doe"; title := "Software Engineer";
             direct_reports := [] |}]> ∅).

(** The unfolding of [diamond_heap]: the shared employee occurs twice. *)
Definition diamond_tree : tree :=
  Node 0 [Node 1 [Node 3 []]; Node 2 [Node 3 []]].

(** * Part I, continued: the rest of the module *)

(** ** The employee class *)

Module EmployeeClass.

(** [Employee(name, title, direct_reports)]: a new object with the three
    attributes. The list passed in is held by value, which is what the
    object holds as long as the caller keeps no other reference to that
    list (in [main] each list is a literal written in the call). *)
Definition __init__ (h : heap) (name title : string)
    (direct_reports : list ref) : ref * heap :=
  let self := fresh (dom h) in
  (self,
   <[self := {| name := name; title := title;
                direct_reports := direct_reports |}]> h).

(** [__repr__]: [f"<Employee name={self.name}>"]. *)
Definition __repr__ (self : Employee) : string :=
  "<Employee name=" +:+ name self +:+ ">".

End EmployeeClass.

(** [x.direct_reports.append(r)], as [main] does to its hacker. *)
Definition append_report (h : heap) (x r : ref) : heap :=
  alter (λ e, {| name := name e; title := title e;
                 direct_reports := append (direct_reports e) r |}) x h.

(** ** More of the iterator protocol *)

(** The object after [n] successive calls of [next]. *)
Fixpoint after {S : Type} `{Iterator S} (h : heap) (n : nat) (s : S) : S :=
  match n with
  | 0 => s
  | S n' =>
    match next h s with
    | None => after h n' s
    | Some (_, s') => after h n' s'
    end
  end.

(** The employees the calls returned, out of the outcomes of [pulls]. *)
Definition returned (outcomes : list (option (outcome ref))) : list ref :=
  omap (λ o, match o with Some (Return x) => Some x | _ => None end) outcomes.

(** The object a consuming loop leaves behind, beside what [consume]
    says of the loop. *)
Fixpoint consume_end {S : Type} `{Iterator S} (h : heap) (fuel : nat) (s : S)
    : S :=
  match fuel with
  | 0 => s
  | S fuel' =>
    match next h s with
    | None => s
    | Some (Return _, s') => consume_end h fuel' s'
    | Some (Raise _, s') => s'
    end
  end.

(** ** [main] *)

(** How a run of [main], or of a part of it, ends: it reaches its end, an
    [assert] fails (on the given line of the source), an exception is not
    caught, or the run left what the model describes (a reference that is
    not allocated, an exception whose text is not modelled). What was
    printed until then comes with it. *)
Inductive run_result :=
  | Finished (stdout : list string)
  | AssertionFailed (line : nat) (stdout : list string)
  | Uncaught (e : exn) (stdout : list string)
  | NotModelled.

(** The two callables [main] iterates over:
    [for iter_fn in (EmployeeIterator, employee_generator)]. *)
Inductive iter_fn :=
  | Use_EmployeeIterator
  | Use_employee_generator.

(** [list(iter_fn(employee))]; [list] calls [__iter__] on the instance of
    the class before it pulls. *)
Definition list_iter_fn (h : heap) (f : iter_fn) (employee : ref)
    : list ref * ending :=
  match f with
  | Use_EmployeeIterator =>
    to_list h (EmployeeIterator.__iter__ (EmployeeIterator.__init__ employee))
  | Use_employee_generator => to_list h (employee_generator employee)
  end.

(** [str(e)] for an exception built with no argument or with one; the text
    for more arguments (the [repr] of a tuple) is not modelled. *)
Definition exn_str (e : exn) : option string :=
  match exn_args e with
  | [] => Some ""%string
  | [a] => Some a
  | _ => None
  end.

(** [repr] of a list of employees, as [print(employees)] writes it. *)
Definition repr_employees (h : heap) (employees : list ref) : option string :=
  reprs ← mapM (λ x, EmployeeClass.__repr__ <$> h !! x) employees;
  Some ("[" +:+ String.concat ", " reprs +:+ "]")%string.

(** Lines 130 to 136 of the source, for the [manager] at hand: the two
    comprehensions, the three [assert]s and the [print].

    The traversal asks an object for [name] and [direct_reports] and for
    nothing else, so it walks over objects of any class that has the two
    attributes; the store holds those attributes for every object,
    whatever its class. [employee_objects] are the references to the
    objects whose class is [Employee] (the module defines no subclass):
    [isinstance(emp, Employee)] on line 135 asks whether [emp] is one of
    them.

    Line 131 compares two lists of objects. [Employee] defines no
    [__eq__], and Python takes identical objects as equal before it asks
    any [__eq__], so the lists are compared by the identity of their
    items. *)
Definition main_checks (h : heap) (employee_objects : gset nat)
    (manager : ref) (stdout : list string) : run_result :=
  match list_iter_fn h Use_EmployeeIterator manager with
  | (employees, Exhausted) =>
    match list_iter_fn h Use_employee_generator manager with
    | (employees', Exhausted) =>
      if decide (employees = employees') then
        if decide (length employees = 3) then
          if forallb (λ emp, bool_decide (emp ∈ employee_objects)) employees
          then
            match repr_employees h employees with
            | Some line => Finished (stdout ++ [line])
            | None => NotModelled
            end
          else AssertionFailed 135 stdout
        else AssertionFailed 132 stdout
      else AssertionFailed 131 stdout
    | (_, Propagated e) => Uncaught e stdout
    | _ => NotModelled
    end
  | (_, Propagated e) => Uncaught e stdout
  | _ => NotModelled
  end.

(** Lines 142 to 146: each callable in turn, under [try]; an
    [IterationError] is caught and printed, anything else goes on to the
    caller. *)
Fixpoint main_try (h : heap) (hacker : ref) (fns : list iter_fn)
    (stdout : list string) : run_result :=
  match fns with
  | [] => Finished stdout
  | f :: fns' =>
    match list_iter_fn h f hacker with
    | (_, Exhausted) => main_try h hacker fns' stdout
    | (_, Propagated e) =>
      if handler_catches IterationError e then
        match exn_str e with
        | Some text => main_try h hacker fns' (stdout ++ [text])
        | None => NotModelled
        end
      else Uncaught e stdout
    | _ => NotModelled
    end
  end.

(** [main()]: the arguments of a call are evaluated from left to right,
    so John Doe is built before Jane Doe and both before their manager.
    The three objects are made by [Employee(...)], so they are the
    objects of class [Employee] when the checks run. *)
Definition main : run_result :=
  let '(john, h1) :=
    EmployeeClass.__init__ ∅ "John Doe" "Software Engineer" [] in
  let '(jane, h2) :=
    EmployeeClass.__init__ h1 "Jane Doe" "Software Engineer" [] in
  let '(manager, h3) :=
    EmployeeClass.__init__ h2 "Max Doe" "Engineering Manager" [john; jane] in
  match main_checks h3 {[john; jane; manager]} manager [] with
  | Finished stdout =>
    let '(hacker, h4) := EmployeeClass.__init__ h3 "Unknown" "Hacker" [] in
    let h5 := append_report h4 hacker hacker in
    main_try h5 hacker [Use_EmployeeIterator; Use_employee_generator] stdout
  | r => r
  end.

(** ** A generator object read as an instance of the class *)

(** The instance of the class that stands where the generator object
    stands; a finished generator stands where an instance with nothing
    left to visit stands. *)
Definition iterator_of (g : generator) : EmployeeIterator.t :=
  match g with
  | GenCreated top_employee => EmployeeIterator.__init__ top_employee
  | GenSuspended to_visit visited =>
    {| EmployeeIterator.employees_to_visit := to_visit;
       EmployeeIterator.employees_visited := visited |}
  | GenFinished =>
    {| EmployeeIterator.employees_to_visit := [];
       EmployeeIterator.employees_visited := ∅ |}
  end.

(** * Part III: lemmas *)

(** [next] on an instance of the class is [__next__], on a generator
    object [generator_next]: name the method that runs. *)
Ltac method_of_next :=
  repeat match goal with
  | |- context [@next EmployeeIterator.t _ ?h ?s] =>
    change (@next EmployeeIterator.t _ h s) with (EmployeeIterator.__next__ h s)
  | |- context [@next generator _ ?h ?s] =>
    change (@next generator _ h s) with (generator_next h s)
  end.

Example main_iterator :
  to_list main_heap (EmployeeIterator.__init__ 0) = ([0; 2; 1], Exhausted).
Proof. vm_compute. reflexivity. Qed.

Example main_generator :
  to_list main_heap (employee_generator 0) = ([0; 2; 1], Exhausted).
Proof. vm_compute. reflexivity. Qed.

Example hacker_iterator :
  to_list hacker_heap (EmployeeIterator.__init__ 0)
  = ([0], Propagated cyclic_loop_detected).
Proof. vm_compute. reflexivity. Qed.

Example hacker_generator :
  to_list hacker_heap (employee_generator 0)
  = ([0], Propagated cyclic_loop_detected).
Proof. vm_compute. reflexivity. Qed.

(** An employee listed twice by one manager is pushed twice, and the
    second pop raises: the unfolding has two places of one name. *)
Example listed_twice_iterator :
  to_list listed_twice_heap (EmployeeIterator.__init__ 0)
  = ([0; 1], Propagated cyclic_loop_detected).
Proof. vm_compute. reflexivity. Qed.

Example listed_twice_generator :
  to_list listed_twice_heap (employee_generator 0)
  = ([0; 1], Propagated cyclic_loop_detected).
Proof. vm_compute. reflexivity. Qed.

(** ** Stack lemmas *)

Lemma pop_nil {A : Type} : pop (@nil A) = None.
Proof. reflexivity. Qed.

Lemma pop_snoc {A : Type} (l : list A) (x : A) : pop (l ++ [x]) = Some (l, x).
Proof.
  unfold pop. rewrite reverse_app. simpl. now rewrite reverse_involutive.
Qed.

Lemma pop_Some {A : Type} (l rest : list A) (x : A) :
  pop l = Some (rest, x) ↔ l = rest ++ [x].
Proof.
  split.
  - unfold pop. destruct (reverse l) as [|y r] eqn:E; [discriminate|].
    intros [= <- <-]. rewrite <- (reverse_involutive l), E.
    now rewrite reverse_cons.
  - intros ->. apply pop_snoc.
Qed.

Lemma pop_None {A : Type} (l : list A) : pop l = None ↔ l = [].
Proof.
  split; [|intros ->; reflexivity].
  destruct l as [|a l] using rev_ind; [reflexivity|].
  rewrite pop_snoc. discriminate.
Qed.

Lemma append_all_app {A : Type} (to_visit reports : list A) :
  append_all to_visit reports = to_visit ++ reports.
Proof.
  unfold append_all. revert to_visit.
  induction reports as [|r reports IH]; intros to_visit; simpl.
  - now rewrite app_nil_r.
  - rewrite IH. unfold append. now rewrite <- app_assoc.
Qed.

(** ** One step, case by case *)

Section step.
Context (h : heap).
Import EmployeeIterator.

Lemma next_empty (visited : gset string) :
  __next__ h {| employees_to_visit := []; employees_visited := visited |}
  = Some (Raise stop_iteration,
          {| employees_to_visit := []; employees_visited := visited |}).
Proof. reflexivity. Qed.

Lemma next_top (rest : list ref) (x : ref) (visited : gset string) :
  __next__ h {| employees_to_visit := rest ++ [x]; employees_visited := visited |}
  = match h !! x with
    | None => None
    | Some e =>
      if decide (name e ∈ visited)
      then Some (Raise cyclic_loop_detected,
                 {| employees_to_visit := rest; employees_visited := visited |})
      else Some (Return x,
                 {| employees_to_visit := rest ++ direct_reports e;
                    employees_visited := visited ∪ {[name e]} |})
    end.
Proof.
  unfold __next__; simpl. rewrite pop_snoc.
  destruct (rest ++ [x]) eqn:E; [now destruct rest|].
  destruct (h !! x); [|reflexivity].
  now rewrite append_all_app.
Qed.

Lemma resume_empty (visited : gset string) :
  generator_resume h [] visited = Some (Raise stop_iteration, GenFinished).
Proof. reflexivity. Qed.

Lemma resume_top (rest : list ref) (x : ref) (visited : gset string) :
  generator_resume h (rest ++ [x]) visited
  = match h !! x with
    | None => None
    | Some e =>
      if decide (name e ∈ visited)
      then Some (Raise cyclic_loop_detected, GenFinished)
      else Some (Return x,
                 GenSuspended (rest ++ direct_reports e) (visited ∪ {[name e]}))
    end.
Proof.
  unfold generator_resume. rewrite pop_snoc.
  destruct (decide (0 < length (rest ++ [x]))) as [_|Hn].
  - destruct (h !! x); [|reflexivity]. now rewrite append_all_app.
  - exfalso. apply Hn. rewrite length_app. simpl. lia.
Qed.

End step.

(** ** The generator simulates the iterator *)

Lemma resume_simulates (h : heap) (to_visit : list ref) (visited : gset string) :
  same_step
    (EmployeeIterator.__next__ h
       {| EmployeeIterator.employees_to_visit := to_visit;
          EmployeeIterator.employees_visited := visited |})
    (generator_resume h to_visit visited).
Proof.
  destruct to_visit as [|x rest _] using rev_ind.
  - rewrite next_empty, resume_empty. reflexivity.
  - rewrite next_top, resume_top.
    destruct (h !! x) as [e|]; [|exact I].
    destruct (decide (name e ∈ visited)); simpl; [reflexivity|].
    split; [reflexivity|]. now left.
Qed.

Lemma next_simulates (h : heap) (it : EmployeeIterator.t) (g : generator) :
  same_state it g →
  same_step (EmployeeIterator.__next__ h it) (generator_next h g).
Proof.
  intros [->|(root & -> & ->)]; simpl.
  - destruct it. apply resume_simulates.
  - apply resume_simulates.
Qed.

Lemma consume_simulates (h : heap) (fuel : nat) (it : EmployeeIterator.t)
    (g : generator) :
  same_state it g → consume h fuel it = consume h fuel g.
Proof.
  revert it g. induction fuel as [|fuel IH]; intros it g Hs; [reflexivity|].
  simpl.
  method_of_next.
  pose proof (next_simulates h it g Hs) as Hstep.
  destruct (EmployeeIterator.__next__ h it) as [[[x|e] it']|],
           (generator_next h g) as [[[y|e'] g']|]; simpl in Hstep; try done.
  - destruct Hstep as [<- Hs']. now rewrite (IH it' g' Hs').
  - now subst e'.
Qed.

Lemma pulls_simulates_until_raise (h : heap) (n : nat)
    (it : EmployeeIterator.t) (g : generator) (out : list ref) (e : exn) :
  same_state it g →
  pulls h n it = (Some ∘ Return <$> out) ++ [Some (Raise e)] →
  pulls h n g = (Some ∘ Return <$> out) ++ [Some (Raise e)].
Proof.
  revert it g out. induction n as [|n IH]; intros it g out Hs; simpl.
  - now destruct out.
  - method_of_next.
    pose proof (next_simulates h it g Hs) as Hstep.
    destruct (EmployeeIterator.__next__ h it) as [[[x|e1] it']|],
             (generator_next h g) as [[[y|e2] g']|]; simpl in Hstep; try done.
    + destruct Hstep as [<- Hs']. destruct out as [|o out]; simpl; [done|].
      intros [= <- Hp]. f_equal. now apply (IH it' g').
    + subst e2. destruct out as [|o out]; simpl; [|done].
      intros [= <- Hp]. destruct n; [reflexivity|].
      simpl in Hp. now destruct (next h it') as [[]|].
    + now destruct out.
Qed.

(** ** Termination: the bound on pulls *)

Lemma elem_of_unvisited (h : heap) (visited : gset string) (x : ref) :
  x ∈ unvisited h visited ↔ ∃ e, h !! x = Some e ∧ name e ∉ visited.
Proof.
  unfold unvisited. rewrite elem_of_dom. unfold is_Some.
  setoid_rewrite map_lookup_filter_Some. simpl. reflexivity.
Qed.

Lemma unvisited_size (h : heap) (visited : gset string) :
  size (unvisited h visited) ≤ size h.
Proof.
  rewrite <- (size_dom h). apply subseteq_size.
  intros x. rewrite elem_of_unvisited, elem_of_dom.
  intros (e & He & _). now exists e.
Qed.

Lemma unvisited_visit (h : heap) (visited : gset string) (x : ref) (e : Employee) :
  h !! x = Some e → name e ∉ visited →
  size (unvisited h (visited ∪ {[name e]})) < size (unvisited h visited).
Proof.
  intros Hx Hn. apply subset_size. split.
  - intros y. rewrite !elem_of_unvisited. intros (e' & He' & Hn').
    exists e'. split; [done|]. set_solver.
  - intros Hsub. assert (x ∈ unvisited h (visited ∪ {[name e]})) as Hin.
    { apply Hsub, elem_of_unvisited. eauto. }
    apply elem_of_unvisited in Hin as (e' & He' & Hn').
    rewrite Hx in He'. injection He' as <-. set_solver.
Qed.

Lemma consume_more_fuel {S : Type} `{Iterator S} (h : heap) (fuel fuel' : nat)
    (s : S) :
  fuel ≤ fuel' → (consume h fuel s).2 ≠ OutOfFuel →
  consume h fuel' s = consume h fuel s.
Proof.
  revert fuel' s. induction fuel as [|fuel IH]; intros fuel' s Hle; simpl.
  - done.
  - destruct fuel' as [|fuel']; [lia|]. simpl.
    destruct (next h s) as [[[x|e] s']|]; try reflexivity.
    specialize (IH fuel' s' ltac:(lia)).
    destruct (consume h fuel s') as [xs e] eqn:E. simpl. intros Hne.
    now rewrite IH.
Qed.

Lemma consume_iterator_fuel (h : heap) (fuel : nat) (it : EmployeeIterator.t) :
  size (unvisited h (EmployeeIterator.employees_visited it)) < fuel →
  (consume h fuel it).2 ≠ OutOfFuel.
Proof.
  revert it. induction fuel as [|fuel IH]; intros [to_visit visited] Hlt;
    simpl in *; [lia|].
  method_of_next.
  destruct to_visit as [|x rest _] using rev_ind.
  - rewrite next_empty. simpl. done.
  - rewrite next_top. destruct (h !! x) as [e|] eqn:Hx; [|done].
    destruct (decide (name e ∈ visited)) as [Hin|Hn]; [done|].
    pose proof (unvisited_visit h visited x e Hx Hn) as Hdec.
    match goal with |- context [consume h fuel ?s] =>
      specialize (IH s); destruct (consume h fuel s) as [xs e'] end.
    simpl in *. apply IH. lia.
Qed.

(** [to_list] never runs out of pulls, whatever the store holds. *)
Lemma to_list_iterator_terminates (h : heap) (it : EmployeeIterator.t) :
  (to_list h it).2 ≠ OutOfFuel.
Proof.
  apply consume_iterator_fuel.
  pose proof (unvisited_size h (EmployeeIterator.employees_visited it)). lia.
Qed.

(** Whatever some number of pulls ended with, [to_list] ends with. *)
Lemma to_list_iterator_consume (h : heap) (fuel : nat) (it : EmployeeIterator.t) :
  (consume h fuel it).2 ≠ OutOfFuel → to_list h it = consume h fuel it.
Proof.
  intros Hne. unfold to_list.
  destruct (decide (fuel ≤ S (size h))) as [Hle|Hgt].
  - now apply consume_more_fuel.
  - symmetry. apply consume_more_fuel; [lia|].
    apply (to_list_iterator_terminates h it).
Qed.

Lemma to_list_simulates (h : heap) (it : EmployeeIterator.t) (g : generator) :
  same_state it g → to_list h it = to_list h g.
Proof. apply consume_simulates. Qed.

Lemma same_state_init (root : ref) :
  same_state (EmployeeIterator.__init__ root) (employee_generator root).
Proof. right. now exists root. Qed.

(** ** Consuming, one pull at a time *)

Section consume_steps.
Context (h : heap).
Import EmployeeIterator.

Lemma consume_empty (fuel : nat) (visited : gset string) :
  consume h (S fuel) {| employees_to_visit := []; employees_visited := visited |}
  = ([], Exhausted).
Proof. reflexivity. Qed.

Lemma consume_deliver (fuel : nat) (rest : list ref) (x : ref)
    (visited : gset string) (e : Employee) :
  h !! x = Some e → name e ∉ visited →
  consume h (S fuel)
    {| employees_to_visit := rest ++ [x]; employees_visited := visited |}
  = let '(xs, en) :=
      consume h fuel
        {| employees_to_visit := rest ++ direct_reports e;
           employees_visited := visited ∪ {[name e]} |} in
    (x :: xs, en).
Proof.
  intros Hx Hn. simpl.
  method_of_next.
  rewrite next_top, Hx. now destruct (decide (name e ∈ visited)).
Qed.

Lemma consume_cycle (fuel : nat) (rest : list ref) (x : ref)
    (visited : gset string) (e : Employee) :
  h !! x = Some e → name e ∈ visited →
  consume h (S fuel)
    {| employees_to_visit := rest ++ [x]; employees_visited := visited |}
  = ([], Propagated cyclic_loop_detected).
Proof.
  intros Hx Hn. simpl.
  method_of_next.
  rewrite next_top, Hx. now destruct (decide (name e ∈ visited)).
Qed.

Lemma next_deliver (rest : list ref) (x : ref) (visited : gset string)
    (e : Employee) :
  h !! x = Some e → name e ∉ visited →
  __next__ h {| employees_to_visit := rest ++ [x]; employees_visited := visited |}
  = Some (Return x,
          {| employees_to_visit := rest ++ direct_reports e;
             employees_visited := visited ∪ {[name e]} |}).
Proof.
  intros Hx Hn. rewrite next_top, Hx.
  now destruct (decide (name e ∈ visited)).
Qed.

Lemma next_cycle (rest : list ref) (x : ref) (visited : gset string)
    (e : Employee) :
  h !! x = Some e → name e ∈ visited →
  __next__ h {| employees_to_visit := rest ++ [x]; employees_visited := visited |}
  = Some (Raise cyclic_loop_detected,
          {| employees_to_visit := rest; employees_visited := visited |}).
Proof.
  intros Hx Hn. rewrite next_top, Hx.
  now destruct (decide (name e ∈ visited)).
Qed.

Lemma resume_deliver (rest : list ref) (x : ref) (visited : gset string)
    (e : Employee) :
  h !! x = Some e → name e ∉ visited →
  generator_resume h (rest ++ [x]) visited
  = Some (Return x,
          GenSuspended (rest ++ direct_reports e) (visited ∪ {[name e]})).
Proof.
  intros Hx Hn. rewrite resume_top, Hx.
  now destruct (decide (name e ∈ visited)).
Qed.

Lemma resume_cycle (rest : list ref) (x : ref) (visited : gset string)
    (e : Employee) :
  h !! x = Some e → name e ∈ visited →
  generator_resume h (rest ++ [x]) visited
  = Some (Raise cyclic_loop_detected, GenFinished).
Proof.
  intros Hx Hn. rewrite resume_top, Hx.
  now destruct (decide (name e ∈ visited)).
Qed.

End consume_steps.

(** ** What the two realisations raise *)

(** Whatever [__next__] raises is [StopIteration] or the cycle error:
    the guarded [pop] never fails. *)
Lemma iterator_raises (h : heap) (it it' : EmployeeIterator.t) (e : exn) :
  EmployeeIterator.__next__ h it = Some (Raise e, it') →
  e = stop_iteration ∨ e = cyclic_loop_detected.
Proof.
  destruct it as [to_visit visited].
  destruct to_visit as [|x rest _] using rev_ind.
  - rewrite next_empty. intros [= <- _]. now left.
  - rewrite next_top. destruct (h !! x) as [ex|]; [|done].
    destruct (decide (name ex ∈ visited)); [|done].
    intros [= <- _]. now right.
Qed.

Lemma generator_raises (h : heap) (g g' : generator) (e : exn) :
  generator_next h g = Some (Raise e, g') →
  e = stop_iteration ∨ e = cyclic_loop_detected.
Proof.
  assert (∀ to_visit visited,
    generator_resume h to_visit visited = Some (Raise e, g') →
    e = stop_iteration ∨ e = cyclic_loop_detected) as Hres.
  { intros to_visit visited.
    destruct to_visit as [|x rest _] using rev_ind.
    - rewrite resume_empty. intros [= <- _]. now left.
    - rewrite resume_top. destruct (h !! x) as [ex|]; [|done].
      destruct (decide (name ex ∈ visited)); [|done].
      intros [= <- _]. now right. }
  destruct g; simpl; eauto.
  intros [= <- _]. now left.
Qed.

(** ** Stores whose references are all allocated *)

Lemma closed_reports (h : heap) (x : ref) (e : Employee) :
  closed h → h !! x = Some e → allocated h (direct_reports e).
Proof. intros Hc Hx. exact (map_Forall_lookup_1 _ _ _ _ Hc Hx). Qed.

Lemma allocated_push (h : heap) (rest : list ref) (x : ref) (e : Employee) :
  closed h → allocated h (rest ++ [x]) → h !! x = Some e →
  allocated h (rest ++ direct_reports e).
Proof.
  intros Hc Ha Hx. apply Forall_app in Ha as [Hrest _].
  apply Forall_app. split; [exact Hrest|]. now apply (closed_reports h x).
Qed.

Lemma size_allocated (h : heap) (x : ref) (e : Employee) :
  h !! x = Some e → 0 < size h.
Proof.
  intros Hx. destruct (size h) eqn:E; [|lia].
  apply map_size_empty_inv in E. subst h. now rewrite lookup_empty in Hx.
Qed.

(** While an employee whose name is visited waits on the stack, the
    traversal cannot end normally: it ends with the cycle error, and
    whatever it delivers until then bears a name that was new. *)
Lemma consume_visited_pending (h : heap) (X : ref) (eX : Employee) :
  closed h → h !! X = Some eX →
  ∀ fuel to_visit visited out en,
    allocated h to_visit → X ∈ to_visit → name eX ∈ visited →
    consume h fuel
      {| EmployeeIterator.employees_to_visit := to_visit;
         EmployeeIterator.employees_visited := visited |} = (out, en) →
    (en = OutOfFuel ∨ en = Propagated cyclic_loop_detected)
    ∧ Forall (λ y, ∃ ey, h !! y = Some ey ∧ name ey ∉ visited) out.
Proof.
  intros Hc HX. induction fuel as [|fuel IH];
    intros to_visit visited out en Ha Hin Hv.
  - intros [= <- <-]. split; [now left|constructor].
  - destruct to_visit as [|x rest _] using rev_ind; [set_solver|].
    assert (is_Some (h !! x)) as [e Hx].
    { apply Forall_app in Ha as [_ Hx]. now inversion Hx. }
    destruct (decide (name e ∈ visited)) as [Hseen|Hnew].
    + rewrite (consume_cycle h fuel rest x visited e Hx Hseen).
      intros [= <- <-]. split; [now right|constructor].
    + rewrite (consume_deliver h fuel rest x visited e Hx Hnew).
      destruct (consume h fuel _) as [xs en'] eqn:E. intros [= <- <-].
      assert (x ≠ X) as Hne.
      { intros ->. rewrite HX in Hx. injection Hx as <-. done. }
      apply IH in E as [Hen Hxs].
      * split; [exact Hen|]. constructor; [now exists e|].
        eapply Forall_impl; [exact Hxs|]. simpl.
        intros y (ey & Hy & Hny). exists ey. split; [done|]. set_solver.
      * now apply (allocated_push h rest x e).
      * set_solver.
      * set_solver.
Qed.

(** ** Finite unfoldings and the traversal *)

Lemma order_Node (x : ref) (ts : list tree) :
  order (Node x ts) = x :: order_forest ts.
Proof. reflexivity. Qed.

Lemma order_forest_app (ts1 ts2 : list tree) :
  order_forest (ts1 ++ ts2) = order_forest ts2 ++ order_forest ts1.
Proof.
  unfold order_forest. now rewrite map_app, reverse_app, concat_app.
Qed.

Lemma order_forest_snoc (ts : list tree) (t : tree) :
  order_forest (ts ++ [t]) = order t ++ order_forest ts.
Proof.
  rewrite order_forest_app. unfold order_forest at 1. simpl.
  now rewrite app_nil_r.
Qed.

Lemma elem_of_order_forest (ts : list tree) (a : ref) :
  a ∈ order_forest ts ↔ ∃ t, t ∈ ts ∧ a ∈ order t.
Proof.
  induction ts as [|t ts IH] using rev_ind.
  - split; [intros Hin; inversion Hin|intros (t & Ht & _); inversion Ht].
  - rewrite order_forest_snoc, elem_of_app, IH. split.
    + intros [Ha|(t' & Ht' & Ha)].
      * exists t. split; [set_solver|done].
      * exists t'. split; [set_solver|done].
    + intros (t' & Ht' & Ha). apply elem_of_app in Ht' as [Ht'|Ht'].
      * right. now exists t'.
      * left. apply list_elem_of_singleton in Ht'. now subst t'.
Qed.

Lemma order_child_shorter (x : ref) (ts : list tree) (t : tree) :
  t ∈ ts → length (order t) < length (order (Node x ts)).
Proof.
  intros Hin. rewrite order_Node. simpl.
  apply list_elem_of_split in Hin as (ts1 & ts2 & ->).
  change (t :: ts2) with ([t] ++ ts2).
  rewrite app_assoc, order_forest_app, order_forest_snoc, !length_app. lia.
Qed.

Lemma unfolds_root (h : heap) (x : ref) (t : tree) :
  unfolds h x t → ∃ e ts, t = Node x ts ∧ h !! x = Some e
                          ∧ Forall2 (unfolds h) (direct_reports e) ts.
Proof. intros Hu. inversion Hu; subst. eauto. Qed.

Lemma unfolds_edge (h : heap) (x y : ref) (t : tree) :
  unfolds h x t → edge h x y →
  ∃ t', unfolds h y t' ∧ length (order t') < length (order t)
        ∧ ∀ a, a ∈ order t' → a ∈ order t.
Proof.
  intros Hu (e & He & Hy). apply unfolds_root in Hu as (e' & ts & -> & He' & Hts).
  rewrite He in He'. injection He' as <-.
  apply list_elem_of_lookup in Hy as [i Hi].
  destruct (Forall2_lookup_l _ _ _ _ _ Hts Hi) as (t' & Ht' & Hut').
  apply list_elem_of_lookup_2 in Ht'.
  exists t'. split; [done|]. split; [now apply order_child_shorter|].
  intros a Ha. rewrite order_Node. apply list_elem_of_further.
  apply elem_of_order_forest. now exists t'.
Qed.

Lemma unfolds_tc (h : heap) (x y : ref) (t : tree) :
  unfolds h x t → tc (edge h) x y →
  ∃ t', unfolds h y t' ∧ length (order t') < length (order t).
Proof.
  intros Hu Htc. revert t Hu.
  induction Htc as [x y Hxy|x z y Hxz _ IH]; intros t Hu.
  - destruct (unfolds_edge h x y t Hu Hxy) as (t' & Hu' & Hlt & _). eauto.
  - destruct (unfolds_edge h x z t Hu Hxz) as (tz & Huz & Hlt & _).
    destruct (IH tz Huz) as (t' & Hu' & Hlt'). exists t'. split; [done|lia].
Qed.

(** A store with a finite unfolding below [x] has no cycle through [x]. *)
Lemma unfolds_irreflexive (h : heap) (x : ref) (t : tree) :
  unfolds h x t → ¬ tc (edge h) x x.
Proof.
  remember (length (order t)) as n eqn:Hn. revert t Hn.
  induction n as [n IH] using lt_wf_ind. intros t -> Hu Htc.
  destruct (unfolds_tc h x x t Hu Htc) as (t' & Hu' & Hlt).
  exact (IH _ Hlt t' eq_refl Hu' Htc).
Qed.

Lemma unfolds_reachable (h : heap) (x a : ref) (t : tree) :
  unfolds h x t → reachable h x a →
  ∃ t', unfolds h a t' ∧ ∀ b, b ∈ order t' → b ∈ order t.
Proof.
  intros Hu Hr. revert t Hu.
  induction Hr as [x|x y a Hxy _ IH]; intros t Hu.
  - now exists t.
  - destruct (unfolds_edge h x y t Hu Hxy) as (ty & Huy & _ & Hsub).
    destruct (IH ty Huy) as (t' & Hu' & Hsub'). exists t'. split; [done|].
    intros b Hb. eauto.
Qed.

(** A finite unfolding below the root rules out every reachable cycle. *)
Lemma unfolds_acyclic (h : heap) (root : ref) (t : tree) :
  unfolds h root t → acyclic_from h root.
Proof.
  intros Hu a Hr. destruct (unfolds_reachable h root a t Hu Hr) as (t' & Hu' & _).
  now apply (unfolds_irreflexive h a t').
Qed.

(** The references of the unfolding are the employees reachable from the
    root. *)
Lemma order_reachable (h : heap) (root : ref) (t : tree) :
  unfolds h root t → ∀ a, a ∈ order t ↔ reachable h root a.
Proof.
  intros Hu a. split.
  - remember (length (order t)) as n eqn:Hn. revert root t Hn Hu a.
    induction n as [n IH] using lt_wf_ind. intros root t -> Hu a Ha.
    pose proof Hu as Hu0.
    apply unfolds_root in Hu as (e & ts & -> & He & Hts).
    rewrite order_Node in Ha. apply elem_of_cons in Ha as [->|Ha].
    + apply rtc_refl.
    + apply elem_of_order_forest in Ha as (t' & Ht' & Ha).
      apply list_elem_of_lookup in Ht' as [i Hi].
      destruct (Forall2_lookup_r _ _ _ _ _ Hts Hi) as (y & Hy & Huy).
      apply list_elem_of_lookup_2 in Hy, Hi.
      apply rtc_l with y; [now exists e|].
      apply (IH _ (order_child_shorter root ts t' Hi) y t' eq_refl Huy a Ha).
  - intros Hr. destruct (unfolds_reachable h root a t Hu Hr) as (t' & Hu' & Hsub).
    apply Hsub. apply unfolds_root in Hu' as (e & ts & -> & _).
    rewrite order_Node. apply list_elem_of_here.
Qed.

Lemma names_app (h : heap) (l k : list ref) :
  names h (l ++ k) = names h l ++ names h k.
Proof. apply fmap_app. Qed.

(** On a stack that unfolds to trees whose names are new and pairwise
    distinct, the traversal delivers the trees' references in [order] and
    ends normally. *)
Lemma consume_unfolds (h : heap) (fuel : nat) :
  ∀ (to_visit : list ref) (ts : list tree) (visited : gset string),
    Forall2 (unfolds h) to_visit ts →
    length (order_forest ts) < fuel →
    NoDup (names h (order_forest ts)) →
    (∀ n, Some n ∈ names h (order_forest ts) → n ∉ visited) →
    consume h fuel
      {| EmployeeIterator.employees_to_visit := to_visit;
         EmployeeIterator.employees_visited := visited |}
    = (order_forest ts, Exhausted).
Proof.
  induction fuel as [|fuel IH]; intros to_visit ts visited Hts Hlen Hnd Hnew;
    [lia|].
  destruct ts as [|t ts' _] using rev_ind.
  - apply Forall2_nil_inv_r in Hts as ->. apply consume_empty.
  - apply Forall2_app_inv_r in Hts as (rest & top & Hrest & Htop & ->).
    apply Forall2_cons_inv_r in Htop as (x & top' & Hx & Hnil & ->).
    apply Forall2_nil_inv_r in Hnil as ->.
    apply unfolds_root in Hx as (e & cs & -> & He & Hcs).
    rewrite order_forest_snoc, order_Node in Hlen, Hnd, Hnew |- *.
    simpl in Hlen, Hnd, Hnew. unfold names in Hnd, Hnew.
    rewrite He in Hnd, Hnew. simpl in Hnd, Hnew.
    fold (names h (order_forest cs ++ order_forest ts')) in Hnd, Hnew.
    apply NoDup_cons in Hnd as [Hfresh Hnd].
    rewrite <- order_forest_app in Hlen, Hnd, Hnew, Hfresh.
    assert (name e ∉ visited) as Hne by (apply Hnew; left).
    rewrite (consume_deliver h fuel rest x visited e He Hne).
    rewrite (IH (rest ++ direct_reports e) (ts' ++ cs)).
    + now rewrite order_forest_app.
    + now apply Forall2_app.
    + lia.
    + exact Hnd.
    + intros n Hn. apply not_elem_of_union. split.
      * apply Hnew. now right.
      * intros Heq%elem_of_singleton. now subst n.
Qed.

(** Conversely, a traversal that ends normally has walked a finite
    unfolding of its stack. *)
Lemma consume_exhausted_unfolds (h : heap) (fuel : nat) :
  ∀ (to_visit : list ref) (visited : gset string) (out : list ref),
    consume h fuel
      {| EmployeeIterator.employees_to_visit := to_visit;
         EmployeeIterator.employees_visited := visited |}
    = (out, Exhausted) →
    ∃ ts, Forall2 (unfolds h) to_visit ts ∧ order_forest ts = out.
Proof.
  induction fuel as [|fuel IH]; intros to_visit visited out; [discriminate|].
  destruct to_visit as [|x rest _] using rev_ind.
  - rewrite consume_empty. intros [= <-]. exists []. split; [constructor|done].
  - simpl. method_of_next.
    rewrite next_top. destruct (h !! x) as [e|] eqn:He; [|discriminate].
    destruct (decide (name e ∈ visited)); [discriminate|].
    destruct (consume h fuel _) as [xs en] eqn:E. intros [= <- ->].
    apply IH in E as (ts & Hts & <-).
    apply Forall2_app_inv_l in Hts as (ts' & cs & Hrest & Hcs & ->).
    exists (ts' ++ [Node x cs]). split.
    + apply Forall2_app; [done|]. constructor; [|constructor].
      now apply unfolds_Node with e.
    + now rewrite order_forest_snoc, order_Node, order_forest_app.
Qed.

(** In a store whose references are all allocated the traversal never
    meets a dangling reference. *)
Lemma consume_allocated (h : heap) (fuel : nat) :
  closed h →
  ∀ (to_visit : list ref) (visited : gset string),
    allocated h to_visit →
    (consume h fuel
       {| EmployeeIterator.employees_to_visit := to_visit;
          EmployeeIterator.employees_visited := visited |}).2 ≠ Unallocated.
Proof.
  intros Hc. induction fuel as [|fuel IH]; intros to_visit visited Ha;
    [discriminate|].
  destruct to_visit as [|x rest _] using rev_ind.
  - rewrite consume_empty. discriminate.
  - assert (is_Some (h !! x)) as [e Hx].
    { apply Forall_app in Ha as [_ Hx]. now inversion Hx. }
    destruct (decide (name e ∈ visited)) as [Hseen|Hnew].
    + rewrite (consume_cycle h fuel rest x visited e Hx Hseen). discriminate.
    + rewrite (consume_deliver h fuel rest x visited e Hx Hnew).
      specialize (IH (rest ++ direct_reports e) (visited ∪ {[name e]})
                     (allocated_push h rest x e Hc Ha Hx)).
      now destruct (consume h fuel _).
Qed.

(** An exception that leaves the drain of an [EmployeeIterator] is the
    cycle error. *)
Lemma consume_propagated (h : heap) (fuel : nat) :
  ∀ (it : EmployeeIterator.t) (out : list ref) (e : exn),
    consume h fuel it = (out, Propagated e) → e = cyclic_loop_detected.
Proof.
  induction fuel as [|fuel IH]; intros it out e; [discriminate|].
  simpl. method_of_next.
  destruct (EmployeeIterator.__next__ h it) as [[[x|e'] it']|] eqn:E;
    [| |discriminate].
  - destruct (consume h fuel it') as [xs en] eqn:E'. intros [= <- ->]. eauto.
  - apply iterator_raises in E as [->| ->]; simpl; [discriminate|].
    now intros [= <- <-].
Qed.

(** A drain that ends with an exception, pull by pull: every item is
    delivered by a pull of its own, and the pull after the last raises. *)
Lemma consume_propagated_pulls {S : Type} `{Iterator S} (h : heap) (fuel : nat) :
  ∀ (s : S) (out : list ref) (e : exn),
    consume h fuel s = (out, Propagated e) →
    pulls h (Datatypes.S (length out)) s
    = (Some ∘ Return <$> out) ++ [Some (Raise e)].
Proof.
  induction fuel as [|fuel IH]; intros s out e; [discriminate|].
  simpl. destruct (next h s) as [[[x|e'] s']|] eqn:E; [| |discriminate].
  - destruct (consume h fuel s') as [xs en] eqn:E'. intros [= <- ->].
    simpl. f_equal. now apply IH.
  - destruct (isinstance e' StopIteration); [discriminate|].
    now intros [= <- <-].
Qed.

Lemma order_forest_singleton (t : tree) : order_forest [t] = order t.
Proof. unfold order_forest. simpl. apply app_nil_r. Qed.

Lemma diamond_unfolds : unfolds diamond_heap 0 diamond_tree.
Proof.
  unfold diamond_tree.
  repeat (eapply unfolds_Node; [reflexivity|]; simpl; repeat constructor).
Qed.

(** ** Instances in the object store and the by-value class *)

(** A call of [__next__] on an instance in the store does what the
    by-value [__next__] does on its attributes, and writes to nothing but
    the instance's own list and set. *)
Lemma Instance_next_view (h : heap) (σ : Instance.store) (self : Instance.obj)
    (it : EmployeeIterator.t) :
  Instance.view σ self = Some it →
  match Instance.__next__ h σ self, EmployeeIterator.__next__ h it with
  | None, None => True
  | Some (o, σ'), Some (o', it') =>
    o = o' ∧ Instance.view σ' self = Some it'
    ∧ (∀ l, l ≠ Instance.employees_to_visit self →
            Instance.lists σ' !! l = Instance.lists σ !! l)
    ∧ (∀ s, s ≠ Instance.employees_visited self →
            Instance.sets σ' !! s = Instance.sets σ !! s)
  | _, _ => False
  end.
Proof.
  destruct self as [l s], it as [to_visit visited], σ as [ls ss].
  unfold Instance.view, Instance.__next__. simpl.
  destruct (ls !! l) as [to_visit'|] eqn:Hl; [|discriminate]. simpl.
  destruct (ss !! s) as [visited'|] eqn:Hs; [|discriminate]. simpl.
  intros [= -> ->].
  destruct to_visit as [|x rest _] using rev_ind.
  - rewrite next_empty. simpl. rewrite Hl, Hs. done.
  - rewrite next_top. rewrite pop_snoc.
    destruct (rest ++ [x]) eqn:E; [now destruct rest|]. clear E.
    destruct (h !! x) as [e|]; simpl; [|done].
    destruct (decide (name e ∈ visited)); simpl.
    + rewrite lookup_insert_eq, Hs. simpl. repeat split; try done.
      intros l' Hne. now rewrite lookup_insert_ne.
    + rewrite !lookup_insert_eq. simpl. rewrite append_all_app.
      repeat split; try done.
      * intros l' Hne. now rewrite !lookup_insert_ne.
      * intros s' Hne. now rewrite lookup_insert_ne.
Qed.

(** Advancing one instance leaves the attributes of a separate one as
    they were. *)
Lemma Instance_next_frame (h : heap) (σ σ' : Instance.store)
    (c1 c2 : Instance.obj) (o : outcome ref) :
  Instance.separate c1 c2 → is_Some (Instance.view σ c1) →
  Instance.__next__ h σ c1 = Some (o, σ') →
  Instance.view σ' c2 = Instance.view σ c2.
Proof.
  intros [Hl Hs] [it Hv] Hn.
  pose proof (Instance_next_view h σ c1 it Hv) as Hstep. rewrite Hn in Hstep.
  destruct (EmployeeIterator.__next__ h it) as [[o' it']|]; [|done].
  destruct Hstep as (_ & _ & Hls & Hss).
  unfold Instance.view. now rewrite Hls, Hss.
Qed.

Lemma Instance_separate_sym (c1 c2 : Instance.obj) :
  Instance.separate c1 c2 → Instance.separate c2 c1.
Proof. intros [? ?]. split; congruence. Qed.

Lemma results_cons_same (b : bool) (o : option (outcome ref))
    (log : list (bool * option (outcome ref))) :
  Instance.results b ((b, o) :: log) = o :: Instance.results b log.
Proof. unfold Instance.results. now rewrite filter_cons_True. Qed.

Lemma results_cons_other (b b' : bool) (o : option (outcome ref))
    (log : list (bool * option (outcome ref))) :
  b' ≠ b → Instance.results b ((b', o) :: log) = Instance.results b log.
Proof. intros Hne. unfold Instance.results. now rewrite filter_cons_False. Qed.

Lemma turns_cons_same (b : bool) (sched : list bool) :
  Instance.turns b (b :: sched) = S (Instance.turns b sched).
Proof. unfold Instance.turns. now rewrite filter_cons_True. Qed.

Lemma turns_cons_other (b b' : bool) (sched : list bool) :
  b' ≠ b → Instance.turns b (b' :: sched) = Instance.turns b sched.
Proof. intros Hne. unfold Instance.turns. now rewrite filter_cons_False. Qed.

Lemma turns_replicate (b : bool) (n : nat) :
  Instance.turns b (replicate n b) = n.
Proof.
  induction n as [|n IH]; [reflexivity|].
  simpl replicate. now rewrite turns_cons_same, IH.
Qed.

Lemma pulls_S {S : Type} `{Iterator S} (h : heap) (n : nat) (s : S) :
  pulls h (Datatypes.S n) s
  = match next h s with
    | None => None :: pulls h n s
    | Some (o, s') => Some o :: pulls h n s'
    end.
Proof. reflexivity. Qed.

Lemma interleave_cons (h : heap) (σ : Instance.store) (c1 c2 : Instance.obj)
    (b : bool) (sched : list bool) :
  Instance.interleave h σ c1 c2 (b :: sched)
  = match Instance.__next__ h σ (if b then c1 else c2) with
    | None => (b, None) :: Instance.interleave h σ c1 c2 sched
    | Some (o, σ') => (b, Some o) :: Instance.interleave h σ' c1 c2 sched
    end.
Proof. reflexivity. Qed.

(** Two instances over [main]'s manager, advanced in turn: each delivers
    the three employees in the same order. *)
Example interleave_main :
  let σ0 := {| Instance.lists := ∅; Instance.sets := ∅ |} in
  let '(c1, σ1) := Instance.__init__ σ0 0 in
  let '(c2, σ2) := Instance.__init__ σ1 0 in
  Instance.interleave main_heap σ2 c1 c2
    [true; false; false; true; true; false; true; false]
  = [(true, Some (Return 0)); (false, Some (Return 0));
     (false, Some (Return 2)); (true, Some (Return 2));
     (true, Some (Return 1)); (false, Some (Return 1));
     (true, Some (Raise stop_iteration));
     (false, Some (Raise stop_iteration))].
Proof. vm_compute. reflexivity. Qed.

(** One call on one of two separate instances: the outcome is that of the
    by-value [__next__], the instance follows, the other stays. *)
Lemma Instance_next_separate (h : heap) (σ : Instance.store)
    (c c' : Instance.obj) (it it' : EmployeeIterator.t) :
  Instance.separate c c' →
  Instance.view σ c = Some it → Instance.view σ c' = Some it' →
  match Instance.__next__ h σ c, EmployeeIterator.__next__ h it with
  | None, None => True
  | Some (o, σ'), Some (o', it1) =>
    o = o' ∧ Instance.view σ' c = Some it1 ∧ Instance.view σ' c' = Some it'
  | _, _ => False
  end.
Proof.
  intros Hs Hc Hc'.
  pose proof (Instance_next_view h σ c it Hc) as Hv.
  destruct (Instance.__next__ h σ c) as [[o σ']|] eqn:En,
           (EmployeeIterator.__next__ h it) as [[o' it1]|]; try done.
  destruct Hv as (-> & Hv & _). repeat split; [done|].
  rewrite <- Hc'. eapply Instance_next_frame; eauto.
Qed.

(** Two separate instances advanced in any interleaving: the log of each
    is what its own attributes give when it is advanced alone. *)
Lemma interleave_pulls (h : heap) (c1 c2 : Instance.obj) (sched : list bool) :
  Instance.separate c1 c2 →
  ∀ (σ : Instance.store) (it1 it2 : EmployeeIterator.t),
    Instance.view σ c1 = Some it1 → Instance.view σ c2 = Some it2 →
    Instance.results true (Instance.interleave h σ c1 c2 sched)
    = pulls h (Instance.turns true sched) it1
    ∧ Instance.results false (Instance.interleave h σ c1 c2 sched)
      = pulls h (Instance.turns false sched) it2.
Proof.
  intros Hsep. induction sched as [|b sched IH]; intros σ it1 it2 H1 H2;
    [done|].
  rewrite interleave_cons. destruct b.
  - rewrite turns_cons_same, turns_cons_other, pulls_S by done.
    pose proof (Instance_next_separate h σ c1 c2 it1 it2 Hsep H1 H2) as Hstep.
    method_of_next.
    destruct (Instance.__next__ h σ c1) as [[o σ']|],
             (EmployeeIterator.__next__ h it1) as [[o' it1']|]; try done.
    + destruct Hstep as (-> & H1' & H2').
      destruct (IH σ' it1' it2 H1' H2') as [IH1 IH2].
      rewrite results_cons_same, results_cons_other by done.
      now rewrite IH1, IH2.
    + destruct (IH σ it1 it2 H1 H2) as [IH1 IH2].
      rewrite results_cons_same, results_cons_other by done.
      now rewrite IH1, IH2.
  - rewrite turns_cons_same, turns_cons_other, pulls_S by done.
    pose proof (Instance_next_separate h σ c2 c1 it2 it1
                  (Instance_separate_sym _ _ Hsep) H2 H1) as Hstep.
    method_of_next.
    destruct (Instance.__next__ h σ c2) as [[o σ']|],
             (EmployeeIterator.__next__ h it2) as [[o' it2']|]; try done.
    + destruct Hstep as (-> & H2' & H1').
      destruct (IH σ' it1 it2' H1' H2') as [IH1 IH2].
      rewrite results_cons_same, results_cons_other by done.
      now rewrite IH1, IH2.
    + destruct (IH σ it1 it2 H1 H2) as [IH1 IH2].
      rewrite results_cons_same, results_cons_other by done.
      now rewrite IH1, IH2.
Qed.

(** Two instances built one after the other share nothing, and each
    starts from the attributes [EmployeeIterator.__init__] gives. *)
Lemma Instance_init_twice (σ0 : Instance.store) (root1 root2 : ref) :
  let c1 := (Instance.__init__ σ0 root1).1 in
  let σ1 := (Instance.__init__ σ0 root1).2 in
  let c2 := (Instance.__init__ σ1 root2).1 in
  let σ2 := (Instance.__init__ σ1 root2).2 in
  Instance.separate c1 c2
  ∧ Instance.view σ2 c1 = Some (EmployeeIterator.__init__ root1)
  ∧ Instance.view σ2 c2 = Some (EmployeeIterator.__init__ root2).
Proof.
  destruct σ0 as [ls ss]. simpl.
  assert (fresh (dom ls)
          ≠ fresh (dom (<[fresh (dom ls) := [root1]]> ls))) as Hl.
  { intros Heq. pose proof (is_fresh (dom (<[fresh (dom ls) := [root1]]> ls)))
      as Hf. rewrite <- Heq, dom_insert_L in Hf. set_solver. }
  assert (fresh (dom ss)
          ≠ fresh (dom (<[fresh (dom ss) := (∅ : gset string)]> ss))) as Hs.
  { intros Heq.
    pose proof (is_fresh (dom (<[fresh (dom ss) := (∅ : gset string)]> ss)))
      as Hf. rewrite <- Heq, dom_insert_L in Hf. set_solver. }
  unfold Instance.separate, Instance.view. simpl. repeat split; try done.
  - rewrite lookup_insert_ne by done. rewrite lookup_insert_eq. simpl.
    rewrite lookup_insert_ne by done. now rewrite lookup_insert_eq.
  - now rewrite !lookup_insert_eq.
Qed.

(** ** The pull that raises *)

(** The items a drain delivers are what its first pulls return, one
    each. *)
Lemma consume_pulls_return {S : Type} `{Iterator S} (h : heap) (fuel : nat) :
  ∀ (s : S) (out : list ref) (en : ending),
    consume h fuel s = (out, en) →
    pulls h (length out) s = (Some ∘ Return <$> out).
Proof.
  induction fuel as [|fuel IH]; intros s out en.
  - now intros [= <- <-].
  - simpl. destruct (next h s) as [[[x|e] s']|] eqn:E.
    + destruct (consume h fuel s') as [xs en'] eqn:E'. intros [= <- <-].
      simpl. rewrite E. f_equal. now apply (IH s' xs en').
    + now destruct (isinstance e StopIteration); intros [= <- <-].
    + now intros [= <- <-].
Qed.

(** While the pulls return, the generator object stays where the
    instance of the class stays. *)
Lemma after_simulates (h : heap) (n : nat) :
  ∀ (it : EmployeeIterator.t) (g : generator) (xs : list ref),
    same_state it g →
    pulls h n it = (Some ∘ Return <$> xs) →
    pulls h n g = (Some ∘ Return <$> xs)
    ∧ same_state (after h n it) (after h n g).
Proof.
  induction n as [|n IH]; intros it g xs Hs Hp; [done|].
  destruct xs as [|x' xs].
  { simpl in Hp. now destruct (next h it) as [[? ?]|]. }
  rewrite fmap_cons in Hp |- *. simpl in Hp |- *. method_of_next.
  change (@next EmployeeIterator.t _ h it)
    with (EmployeeIterator.__next__ h it) in Hp.
  pose proof (next_simulates h it g Hs) as Hstep.
  destruct (EmployeeIterator.__next__ h it) as [[[x|e] it']|],
           (generator_next h g) as [[[y|e'] g']|]; simpl in Hstep; try done.
  destruct Hstep as [<- Hs']. injection Hp as <- Hp.
  destruct (IH it' g' xs Hs' Hp) as [Hpg Hsg]. now rewrite Hpg.
Qed.

Lemma after_S {S : Type} `{Iterator S} (h : heap) (n : nat) (s : S) :
  after h (Datatypes.S n) s
  = match next h s with
    | None => after h n s
    | Some (_, s') => after h n s'
    end.
Proof. reflexivity. Qed.

(** A drain that ends with the cycle error leaves, after the pulls that
    delivered its items, an instance whose stack has on top an employee
    whose name is visited; the visited names are those there were and
    those of the items delivered. *)
Lemma consume_propagated_offender (h : heap) (fuel : nat) :
  ∀ (to_visit : list ref) (visited : gset string) (out : list ref) (e0 : exn),
    consume h fuel
      {| EmployeeIterator.employees_to_visit := to_visit;
         EmployeeIterator.employees_visited := visited |}
    = (out, Propagated e0) →
    ∃ rest offender e,
      after h (length out)
        {| EmployeeIterator.employees_to_visit := to_visit;
           EmployeeIterator.employees_visited := visited |}
      = {| EmployeeIterator.employees_to_visit := rest ++ [offender];
           EmployeeIterator.employees_visited :=
             visited ∪ list_to_set (omap (λ x, name <$> h !! x) out) |}
      ∧ h !! offender = Some e
      ∧ name e ∈ visited ∪ list_to_set (omap (λ x, name <$> h !! x) out).
Proof.
  induction fuel as [|fuel IH]; intros to_visit visited out e0; [discriminate|].
  destruct to_visit as [|x rest _] using rev_ind.
  - rewrite consume_empty. discriminate.
  - simpl consume. method_of_next. rewrite next_top.
    destruct (h !! x) as [ex|] eqn:Hx; [|discriminate].
    destruct (decide (name ex ∈ visited)) as [Hseen|Hnew].
    + intros [= <- _]. exists rest, x, ex. simpl.
      split; [f_equal; set_solver|]. split; [done|set_solver].
    + destruct (consume h fuel _) as [xs en] eqn:E. intros [= <- ->].
      apply IH in E as (rest' & offender & e & Hafter & He & Hin).
      exists rest', offender, e. simpl length. rewrite after_S.
      method_of_next. rewrite next_top, Hx.
      destruct (decide (name ex ∈ visited)) as [?|_]; [done|].
      rewrite Hafter. simpl omap. rewrite Hx. simpl.
      split; [f_equal; set_solver|]. split; [done|set_solver].
Qed.

(** * Part IV: the claims *)

(** C1. Order equivalence. For every store and every root, hence for every
    finite acyclic graph, draining [EmployeeIterator(root)] by repeated
    [__next__] and draining [employee_generator(root)] deliver the same
    items in the same order and end the same way; this holds after any
    number of pulls, and the drain always comes to an end. *)
Theorem C1_order_equivalence (h : heap) (root : ref) :
  to_list h (EmployeeIterator.__init__ root)
  = to_list h (employee_generator root)
  ∧ (to_list h (EmployeeIterator.__init__ root)).2 ≠ OutOfFuel
  ∧ ∀ fuel, consume h fuel (EmployeeIterator.__init__ root)
            = consume h fuel (employee_generator root).
Proof.
  split; [|split].
  - apply to_list_simulates, same_state_init.
  - apply to_list_iterator_terminates.
  - intros fuel. apply consume_simulates, same_state_init.
Qed.

(** C2 as stated fails on [diamond_heap]: the graph is acyclic, four
    employees are reachable from the root, and neither realisation ends
    normally: the employee shared by [1] and [2] comes up a second time
    and the cycle error is raised. *)
Lemma C2_counterexample :
  acyclic_from diamond_heap 0
  ∧ (∀ a, reachable diamond_heap 0 a ↔ a ∈ [0; 1; 2; 3])
  ∧ to_list diamond_heap (EmployeeIterator.__init__ 0)
    = ([0; 2; 3; 1], Propagated cyclic_loop_detected)
  ∧ to_list diamond_heap (employee_generator 0)
    = ([0; 2; 3; 1], Propagated cyclic_loop_detected).
Proof.
  split; [|split; [|split]].
  - exact (unfolds_acyclic _ _ _ diamond_unfolds).
  - intros a. rewrite <- (order_reachable _ _ _ diamond_unfolds a).
    simpl. set_solver.
  - vm_compute. reflexivity.
  - vm_compute. reflexivity.
Qed.

(** C2, amended. When the store below the root unfolds to a finite tree
    (the graph is finite and acyclic; the tree has one place for every
    entry of every [direct_reports] list that is followed, so an employee
    who is a direct report of two managers, or who is listed twice by
    one manager, has two places) in which no two places bear the same
    name, both realisations deliver the tree's references in [order] and
    end normally; these are the employees reachable from the root, each
    delivered once, and their number is the number of reachable
    employees. *)
Theorem C2_completeness (h : heap) (root : ref) (t : tree) :
  unfolds h root t → NoDup (names h (order t)) →
  to_list h (EmployeeIterator.__init__ root) = (order t, Exhausted)
  ∧ to_list h (employee_generator root) = (order t, Exhausted)
  ∧ NoDup (order t)
  ∧ (∀ a, a ∈ order t ↔ reachable h root a)
  ∧ (∀ N : gset nat, (∀ a, a ∈ N ↔ reachable h root a) →
       length (order t) = size N)
  ∧ acyclic_from h root.
Proof.
  intros Hu Hnd.
  assert (NoDup (order t)) as Hnd' by exact (NoDup_fmap_1 _ _ Hnd).
  assert (to_list h (EmployeeIterator.__init__ root) = (order t, Exhausted))
    as Hl.
  { pose proof (consume_unfolds h (S (length (order t))) [root] [t] ∅) as Hc.
    rewrite order_forest_singleton in Hc.
    rewrite (to_list_iterator_consume h (S (length (order t))));
      unfold EmployeeIterator.__init__; rewrite Hc; try done.
    all: try (repeat constructor; done); try lia; set_solver. }
  repeat split.
  - exact Hl.
  - now rewrite <- (to_list_simulates h _ _ (same_state_init root)).
  - exact Hnd'.
  - now apply order_reachable.
  - now apply order_reachable.
  - intros N HN. assert (N = list_to_set (order t)) as ->.
    { apply set_eq. intros a. rewrite HN, elem_of_list_to_set.
      symmetry. now apply order_reachable. }
    now rewrite size_list_to_set.
  - now apply (unfolds_acyclic h root t).
Qed.

(** C2, amended, on [main]'s store. *)
Lemma C2_completeness_witness :
  to_list main_heap (EmployeeIterator.__init__ 0) = ([0; 2; 1], Exhausted)
  ∧ to_list main_heap (employee_generator 0) = ([0; 2; 1], Exhausted)
  ∧ NoDup [0; 2; 1]
  ∧ (∀ a, a ∈ [0; 2; 1] ↔ reachable main_heap 0 a)
  ∧ (∀ N : gset nat, (∀ a, a ∈ N ↔ reachable main_heap 0 a) → 3 = size N)
  ∧ acyclic_from main_heap 0.
Proof.
  apply (C2_completeness main_heap 0 (Node 0 [Node 1 []; Node 2 []])).
  - repeat (eapply unfolds_Node; [reflexivity|]; simpl; repeat constructor).
  - apply (bool_decide_unpack (NoDup _)). vm_compute. reflexivity.
Defined.

(** C3 as stated fails on [namesake_heap]: the root has the children
    [[1; 2]], neither has children, and the traversal is not [[0; 2; 1]]:
    it delivers the root and the last child and then raises, because the
    first child bears the name of the last. *)
Lemma C3_counterexample :
  (direct_reports <$> namesake_heap !! 0) = Some [1; 2]
  ∧ (direct_reports <$> namesake_heap !! 1) = Some []
  ∧ (direct_reports <$> namesake_heap !! 2) = Some []
  ∧ to_list namesake_heap (EmployeeIterator.__init__ 0)
    = ([0; 2], Propagated cyclic_loop_detected)
  ∧ to_list namesake_heap (employee_generator 0)
    = ([0; 2], Propagated cyclic_loop_detected)
  ∧ to_list namesake_heap (EmployeeIterator.__init__ 0) ≠ ([0; 2; 1], Exhausted).
Proof. repeat split; vm_compute; (reflexivity || discriminate). Qed.

(** C3, amended. A root [R] with the children [[A; B]], neither with
    children of its own, the three names pairwise distinct: the first call
    delivers [R] and leaves the children on the stack in their given
    order, and both realisations deliver [[R; B; A]] and end normally. *)
Theorem C3_last_child_first (h : heap) (R A B : ref) (eR eA eB : Employee) :
  h !! R = Some eR → direct_reports eR = [A; B] →
  h !! A = Some eA → direct_reports eA = [] →
  h !! B = Some eB → direct_reports eB = [] →
  name eR ≠ name eA → name eR ≠ name eB → name eA ≠ name eB →
  EmployeeIterator.__next__ h (EmployeeIterator.__init__ R)
  = Some (Return R,
          {| EmployeeIterator.employees_to_visit := [A; B];
             EmployeeIterator.employees_visited := ∅ ∪ {[name eR]} |})
  ∧ to_list h (EmployeeIterator.__init__ R) = ([R; B; A], Exhausted)
  ∧ to_list h (employee_generator R) = ([R; B; A], Exhausted).
Proof.
  intros HR HRc HA HAc HB HBc HRA HRB HAB.
  assert (consume h 4 (EmployeeIterator.__init__ R) = ([R; B; A], Exhausted))
    as Hc.
  { unfold EmployeeIterator.__init__.
    rewrite (consume_deliver h 3 [] R ∅ eR HR) by set_solver.
    rewrite HRc. change ([] ++ [A; B]) with ([A] ++ [B]).
    rewrite (consume_deliver h 2 [A] B _ eB HB) by set_solver.
    rewrite HBc. change ([A] ++ []) with ([] ++ [A]).
    rewrite (consume_deliver h 1 [] A _ eA HA) by set_solver.
    rewrite HAc. simpl app. now rewrite consume_empty. }
  assert (to_list h (EmployeeIterator.__init__ R) = ([R; B; A], Exhausted))
    as Hl.
  { rewrite (to_list_iterator_consume h 4); rewrite Hc; done. }
  split; [|split].
  - unfold EmployeeIterator.__init__.
    rewrite (next_deliver h [] R ∅ eR HR) by set_solver. now rewrite HRc.
  - exact Hl.
  - now rewrite <- (to_list_simulates h _ _ (same_state_init R)).
Qed.

(** C3, amended, on [main]'s manager Max Doe with John Doe and Jane Doe. *)
Lemma C3_last_child_first_witness :
  EmployeeIterator.__next__ main_heap (EmployeeIterator.__init__ 0)
  = Some (Return 0,
          {| EmployeeIterator.employees_to_visit := [1; 2];
             EmployeeIterator.employees_visited := ∅ ∪ {["Max Doe"%string]} |})
  ∧ to_list main_heap (EmployeeIterator.__init__ 0) = ([0; 2; 1], Exhausted)
  ∧ to_list main_heap (employee_generator 0) = ([0; 2; 1], Exhausted).
Proof.
  apply (C3_last_child_first main_heap 0 1 2
    {| name := "Max Doe"; title := "Engineering Manager";
       direct_reports := [1; 2] |}
    {| name := "John Doe"; title := "Software Engineer";
       direct_reports := [] |}
    {| name := "Jane Doe"; title := "Software Engineer";
       direct_reports := [] |});
  (reflexivity || (vm_compute; intros H; discriminate H)).
Defined.

(** C4 as stated fails on [hacker_and_friend_heap]: employee [0] is among
    their own direct reports, and the call after the one that delivers
    [0] does not fail: it delivers [1]; the cycle error comes one call
    later. *)
Lemma C4_counterexample :
  (direct_reports <$> hacker_and_friend_heap !! 0) = Some [0; 1]
  ∧ pulls hacker_and_friend_heap 3 (EmployeeIterator.__init__ 0)
    = [Some (Return 0); Some (Return 1); Some (Raise cyclic_loop_detected)]
  ∧ pulls hacker_and_friend_heap 3 (employee_generator 0)
    = [Some (Return 0); Some (Return 1); Some (Raise cyclic_loop_detected)].
Proof. repeat split; vm_compute; reflexivity. Qed.

(** C4, amended. An employee [X] who is among their own direct reports, in
    a store whose references are all allocated: both realisations deliver
    [X] first, then possibly others, none of them [X] or of [X]'s name,
    and end with the cycle error after finitely many pulls; when [X] is
    the last of their direct reports the error comes on the very next
    pull. *)
Theorem C4_self_loop (h : heap) (X : ref) (e : Employee) :
  closed h → h !! X = Some e → X ∈ direct_reports e →
  ∃ out,
    to_list h (EmployeeIterator.__init__ X)
    = (X :: out, Propagated cyclic_loop_detected)
    ∧ to_list h (employee_generator X)
      = (X :: out, Propagated cyclic_loop_detected)
    ∧ (X ∉ out)
    ∧ (∀ y ey, y ∈ out → h !! y = Some ey → name ey ≠ name e)
    ∧ (last (direct_reports e) = Some X → out = []).
Proof.
  intros Hc HX Hself.
  pose proof (to_list_iterator_terminates h (EmployeeIterator.__init__ X))
    as Hterm.
  rewrite <- (to_list_simulates h _ _ (same_state_init X)).
  unfold to_list, EmployeeIterator.__init__ in Hterm |- *.
  rewrite (consume_deliver h (size h) [] X ∅ e HX) in Hterm by set_solver.
  rewrite (consume_deliver h (size h) [] X ∅ e HX) by set_solver.
  simpl app in Hterm |- *.
  destruct (consume h (size h) _) as [out en] eqn:E.
  pose proof E as E'.
  apply (consume_visited_pending h X e Hc HX) in E' as [Hen Hout];
    [|now apply (closed_reports h X)|exact Hself|set_solver].
  destruct Hen as [->| ->]; [now destruct Hterm|].
  assert (∀ y ey, y ∈ out → h !! y = Some ey → name ey ≠ name e) as Hnames.
  { intros y ey Hy Hey. rewrite Forall_forall in Hout.
    destruct (Hout y Hy) as (ey' & Hey' & Hn). rewrite Hey in Hey'.
    injection Hey' as <-. set_solver. }
  exists out. repeat split; try done.
  - intros Hin. now apply (Hnames X e Hin HX).
  - intros Hlast. apply last_Some in Hlast as [rest Hrest].
    pose proof (size_allocated h X e HX) as Hsize.
    destruct (size h) as [|n]; [lia|].
    rewrite Hrest in E.
    rewrite (consume_cycle h n rest X _ e HX) in E by set_solver.
    now injection E as <-.
Qed.

(** C4, amended, on [hacker_and_friend_heap]. *)
Lemma C4_self_loop_witness :
  ∃ out,
    to_list hacker_and_friend_heap (EmployeeIterator.__init__ 0)
    = (0 :: out, Propagated cyclic_loop_detected)
    ∧ to_list hacker_and_friend_heap (employee_generator 0)
      = (0 :: out, Propagated cyclic_loop_detected)
    ∧ (0 ∉ out)
    ∧ (∀ y ey, y ∈ out → hacker_and_friend_heap !! y = Some ey →
               name ey ≠ "Unknown"%string)
    ∧ (last [0; 1] = Some 0 → out = []).
Proof.
  apply (C4_self_loop hacker_and_friend_heap 0
           {| name := "Unknown"; title := "Hacker";
              direct_reports := [0; 1] |}).
  - apply (bool_decide_unpack (closed _)). vm_compute. reflexivity.
  - reflexivity.
  - simpl. set_solver.
Defined.

(** C5 as stated fails on [namesake_cycle_heap]: the root's only child has
    the root as its only child, and the child is never delivered: the
    second call raises when the child is popped, before the root comes up
    again. *)
Lemma C5_counterexample :
  (direct_reports <$> namesake_cycle_heap !! 0) = Some [1]
  ∧ (direct_reports <$> namesake_cycle_heap !! 1) = Some [0]
  ∧ pulls namesake_cycle_heap 2 (EmployeeIterator.__init__ 0)
    = [Some (Return 0); Some (Raise cyclic_loop_detected)]
  ∧ pulls namesake_cycle_heap 2 (employee_generator 0)
    = [Some (Return 0); Some (Raise cyclic_loop_detected)]
  ∧ to_list namesake_cycle_heap (EmployeeIterator.__init__ 0)
    = ([0], Propagated cyclic_loop_detected).
Proof. repeat split; vm_compute; reflexivity. Qed.

(** C5, amended. A root [R] whose only child [C] has [R] as its only
    child, the two names distinct: the first call delivers [R], the second
    delivers [C] and pushes [R] (no error at push time), the third pops
    [R] and raises the cycle error; the generator goes through the same
    three steps, and both drains deliver [[R; C]] before failing. *)
Theorem C5_indirect_cycle (h : heap) (R C : ref) (eR eC : Employee) :
  h !! R = Some eR → direct_reports eR = [C] →
  h !! C = Some eC → direct_reports eC = [R] →
  name eR ≠ name eC →
  let v1 : gset string := ∅ ∪ {[name eR]} in
  let v2 : gset string := v1 ∪ {[name eC]} in
  let it (s : list ref) (v : gset string) :=
    {| EmployeeIterator.employees_to_visit := s;
       EmployeeIterator.employees_visited := v |} in
  EmployeeIterator.__next__ h (EmployeeIterator.__init__ R)
  = Some (Return R, it [C] v1)
  ∧ EmployeeIterator.__next__ h (it [C] v1) = Some (Return C, it [R] v2)
  ∧ EmployeeIterator.__next__ h (it [R] v2)
    = Some (Raise cyclic_loop_detected, it [] v2)
  ∧ generator_next h (employee_generator R)
    = Some (Return R, GenSuspended [C] v1)
  ∧ generator_next h (GenSuspended [C] v1)
    = Some (Return C, GenSuspended [R] v2)
  ∧ generator_next h (GenSuspended [R] v2)
    = Some (Raise cyclic_loop_detected, GenFinished)
  ∧ to_list h (EmployeeIterator.__init__ R)
    = ([R; C], Propagated cyclic_loop_detected)
  ∧ to_list h (employee_generator R)
    = ([R; C], Propagated cyclic_loop_detected).
Proof.
  intros HR HRc HC HCc Hne v1 v2 it.
  assert (consume h 3 (EmployeeIterator.__init__ R)
          = ([R; C], Propagated cyclic_loop_detected)) as Hc.
  { unfold EmployeeIterator.__init__.
    rewrite (consume_deliver h 2 [] R ∅ eR HR) by set_solver.
    rewrite HRc. simpl app. change [C] with ([] ++ [C]).
    rewrite (consume_deliver h 1 [] C _ eC HC) by set_solver.
    rewrite HCc. simpl app. change [R] with ([] ++ [R]).
    rewrite (consume_cycle h 0 [] R _ eR HR) by set_solver. reflexivity. }
  assert (to_list h (EmployeeIterator.__init__ R)
          = ([R; C], Propagated cyclic_loop_detected)) as Hl.
  { rewrite (to_list_iterator_consume h 3); rewrite Hc; done. }
  subst v1 v2 it. repeat split.
  - unfold EmployeeIterator.__init__.
    rewrite (next_deliver h [] R ∅ eR HR) by set_solver. now rewrite HRc.
  - rewrite (next_deliver h [] C _ eC HC) by set_solver. now rewrite HCc.
  - now rewrite (next_cycle h [] R _ eR HR) by set_solver.
  - simpl. rewrite (resume_deliver h [] R ∅ eR HR) by set_solver.
    now rewrite HRc.
  - simpl. rewrite (resume_deliver h [] C _ eC HC) by set_solver.
    now rewrite HCc.
  - simpl. now rewrite (resume_cycle h [] R _ eR HR) by set_solver.
  - exact Hl.
  - now rewrite <- (to_list_simulates h _ _ (same_state_init R)).
Qed.

(** C5, amended, on [indirect_cycle_heap]. *)
Lemma C5_indirect_cycle_witness :
  EmployeeIterator.__next__ indirect_cycle_heap
    {| EmployeeIterator.employees_to_visit := [0];
       EmployeeIterator.employees_visited :=
         ∅ ∪ {["Max Doe"%string]} ∪ {["John Doe"%string]} |}
  = Some (Raise cyclic_loop_detected,
          {| EmployeeIterator.employees_to_visit := [];
             EmployeeIterator.employees_visited :=
               ∅ ∪ {["Max Doe"%string]} ∪ {["John Doe"%string]} |})
  ∧ to_list indirect_cycle_heap (EmployeeIterator.__init__ 0)
    = ([0; 1], Propagated cyclic_loop_detected)
  ∧ to_list indirect_cycle_heap (employee_generator 0)
    = ([0; 1], Propagated cyclic_loop_detected).
Proof.
  pose proof (C5_indirect_cycle indirect_cycle_heap 0 1
    {| name := "Max Doe"; title := "Engineering Manager";
       direct_reports := [1] |}
    {| name := "John Doe"; title := "Software Engineer";
       direct_reports := [0] |}
    eq_refl eq_refl eq_refl eq_refl
    ltac:(vm_compute; intros H; discriminate H))
    as (_ & _ & H3 & _ & _ & _ & Hi & Hg).
  exact (conj H3 (conj Hi Hg)).
Defined.

(** C6. A root without direct reports: both realisations deliver the root
    and nothing else, and the next pull signals the end ([StopIteration]),
    with no error. *)
Theorem C6_root_without_reports (h : heap) (root : ref) (e : Employee) :
  h !! root = Some e → direct_reports e = [] →
  to_list h (EmployeeIterator.__init__ root) = ([root], Exhausted)
  ∧ to_list h (employee_generator root) = ([root], Exhausted)
  ∧ pulls h 2 (EmployeeIterator.__init__ root)
    = [Some (Return root); Some (Raise stop_iteration)]
  ∧ pulls h 2 (employee_generator root)
    = [Some (Return root); Some (Raise stop_iteration)].
Proof.
  intros Hroot Hnil.
  assert (consume h 2 (EmployeeIterator.__init__ root) = ([root], Exhausted))
    as Hc.
  { unfold EmployeeIterator.__init__.
    rewrite (consume_deliver h 1 [] root ∅ e Hroot) by set_solver.
    rewrite Hnil. simpl app. now rewrite consume_empty. }
  assert (to_list h (EmployeeIterator.__init__ root) = ([root], Exhausted))
    as Hl.
  { rewrite (to_list_iterator_consume h 2); rewrite Hc; done. }
  assert (pulls h 2 (EmployeeIterator.__init__ root)
          = [Some (Return root); Some (Raise stop_iteration)]) as Hp.
  { simpl. method_of_next.
    unfold EmployeeIterator.__init__.
    rewrite (next_deliver h [] root ∅ e Hroot) by set_solver.
    rewrite Hnil. reflexivity. }
  repeat split; try done.
  - now rewrite <- (to_list_simulates h _ _ (same_state_init root)).
  - apply (pulls_simulates_until_raise h 2 _ _ [root] stop_iteration
             (same_state_init root) Hp).
Qed.

(** C6, on [main]'s store: John Doe has no direct reports. *)
Lemma C6_root_without_reports_witness :
  to_list main_heap (EmployeeIterator.__init__ 1) = ([1], Exhausted)
  ∧ to_list main_heap (employee_generator 1) = ([1], Exhausted)
  ∧ pulls main_heap 2 (EmployeeIterator.__init__ 1)
    = [Some (Return 1); Some (Raise stop_iteration)]
  ∧ pulls main_heap 2 (employee_generator 1)
    = [Some (Return 1); Some (Raise stop_iteration)].
Proof.
  apply (C6_root_without_reports main_heap 1
           {| name := "John Doe"; title := "Software Engineer";
              direct_reports := [] |}); reflexivity.
Defined.

(** C7. An exception raised by either realisation that is not the
    end-of-sequence signal is the cycle error, an [IterationError], and it
    is an instance of [RuntimeError] too: a handler for [IterationError]
    and a handler for [RuntimeError] both catch it. *)
Theorem C7_cycle_error_is_runtime_error (h : heap) (it it' : EmployeeIterator.t)
    (g g' : generator) (e : exn) :
  EmployeeIterator.__next__ h it = Some (Raise e, it')
  ∨ generator_next h g = Some (Raise e, g') →
  isinstance e StopIteration = false →
  exn_class e = IterationError
  ∧ handler_catches IterationError e = true
  ∧ handler_catches RuntimeError e = true.
Proof.
  intros Hraise Hstop.
  assert (e = stop_iteration ∨ e = cyclic_loop_detected) as [->| ->].
  { destruct Hraise as [Hi|Hg];
      [eapply iterator_raises|eapply generator_raises]; eassumption. }
  - discriminate Hstop.
  - repeat split.
Qed.

(** C7, on [main]'s hacker: the second call of [__next__] raises. *)
Lemma C7_cycle_error_is_runtime_error_witness :
  exn_class cyclic_loop_detected = IterationError
  ∧ handler_catches IterationError cyclic_loop_detected = true
  ∧ handler_catches RuntimeError cyclic_loop_detected = true.
Proof.
  apply (C7_cycle_error_is_runtime_error hacker_heap
           {| EmployeeIterator.employees_to_visit := [0];
              EmployeeIterator.employees_visited := {["Unknown"%string]} |}
           {| EmployeeIterator.employees_to_visit := [];
              EmployeeIterator.employees_visited := {["Unknown"%string]} |}
           GenFinished GenFinished cyclic_loop_detected).
  - left. vm_compute. reflexivity.
  - reflexivity.
Defined.

(** C8. Calling [employee_generator] runs none of its body: the call
    yields a generator that has not started, and no error can come of it.
    When a cycle is reachable from the root (in a store whose references
    are all allocated), the first pull returns the root, and so does
    every pull up to some number return an employee: these are the items
    [root :: out] the drain delivers. The generator is then suspended
    with an employee, the offender, on top of its stack, and its visited
    set holds the names of the items delivered and no other; the
    offender's name is the name of one of them. The next pull, and no
    pull before it, raises the cycle error, as it pops the offender, and
    the generator is finished. *)
Theorem C8_error_at_pull (h : heap) (root : ref) :
  closed h → is_Some (h !! root) → cyclic_from h root →
  employee_generator root = GenCreated root
  ∧ ∃ out rest offender e visited y ey,
      to_list h (employee_generator root)
      = (root :: out, Propagated cyclic_loop_detected)
      ∧ pulls h (S (length out)) (employee_generator root)
        = (Some ∘ Return <$> root :: out)
      ∧ after h (S (length out)) (employee_generator root)
        = GenSuspended (rest ++ [offender]) visited
      ∧ visited = list_to_set (omap (λ x, name <$> h !! x) (root :: out))
      ∧ h !! offender = Some e
      ∧ y ∈ root :: out ∧ h !! y = Some ey ∧ name ey = name e
      ∧ generator_next h (GenSuspended (rest ++ [offender]) visited)
        = Some (Raise cyclic_loop_detected, GenFinished)
      ∧ pulls h (S (S (length out))) (employee_generator root)
        = (Some ∘ Return <$> root :: out)
          ++ [Some (Raise cyclic_loop_detected)].
Proof.
  intros Hc [er Her] (a & Hra & Hcyc). split; [reflexivity|].
  pose proof (to_list_iterator_terminates h (EmployeeIterator.__init__ root))
    as Hfuel.
  pose proof (consume_allocated h (S (size h)) Hc [root] ∅
                ltac:(repeat constructor; done)) as Halloc.
  pose proof (to_list_simulates h _ _ (same_state_init root)) as Hsim.
  pose proof (same_state_init root) as Hs0.
  unfold to_list in Hfuel, Hsim |- *.
  change {| EmployeeIterator.employees_to_visit := [root];
            EmployeeIterator.employees_visited := ∅ |}
    with (EmployeeIterator.__init__ root) in Halloc.
  destruct (consume h (S (size h)) (EmployeeIterator.__init__ root))
    as [outs en] eqn:E.
  simpl in Hfuel, Halloc.
  destruct en as [|e0| |]; try done.
  { apply consume_exhausted_unfolds in E as (ts & Hts & _).
    apply Forall2_cons_inv_l in Hts as (t & ts' & Hu & _ & _).
    now destruct (unfolds_acyclic h root t Hu a Hra). }
  pose proof (consume_propagated h _ _ _ _ E) as ->.
  assert (∃ out, outs = root :: out) as [out ->].
  { revert E. unfold EmployeeIterator.__init__.
    rewrite (consume_deliver h (size h) [] root ∅ er Her) by set_solver.
    destruct (consume h (size h) _) as [xs en]. intros [= <- _]. now exists xs. }
  pose proof (consume_pulls_return h _ _ _ _ E) as Hpi.
  pose proof (consume_propagated_pulls h _ _ _ _ E) as Hpe.
  unfold EmployeeIterator.__init__ in E.
  apply consume_propagated_offender in E
    as (rest & offender & e & Hafter & He & Hin).
  fold (EmployeeIterator.__init__ root) in Hafter.
  destruct (after_simulates h _ _ _ _ Hs0 Hpi) as [Hpg Hsg].
  rewrite Hafter in Hsg. simpl length in Hafter, Hsg, Hpg, Hpe.
  assert (name e ∈ (list_to_set (omap (λ x, name <$> h !! x) (root :: out))
                    : gset string)) as Hin' by set_solver.
  assert (∅ ∪ list_to_set (omap (λ x, name <$> h !! x) (root :: out))
          = (list_to_set (omap (λ x, name <$> h !! x) (root :: out))
             : gset string)) as Hv by set_solver.
  rewrite Hv in Hsg.
  destruct Hsg as [Hg|(root' & Hit & _)].
  2:{ exfalso. unfold EmployeeIterator.__init__ in Hit.
      injection Hit as _ Hit.
      assert (name e ∈ (∅ : gset string)) as Hcontra
        by (rewrite <- Hit; exact Hin').
      set_solver. }
  cbn [EmployeeIterator.employees_to_visit EmployeeIterator.employees_visited]
    in Hg.
  apply elem_of_list_to_set, list_elem_of_omap in Hin' as (y & Hy & Hname).
  destruct (h !! y) as [ey|] eqn:Hey; [|discriminate].
  simpl in Hname. injection Hname as Hname.
  exists out, rest, offender, e,
    (list_to_set (omap (λ x, name <$> h !! x) (root :: out))), y, ey.
  split; [now rewrite <- Hsim|]. split; [exact Hpg|]. split; [exact Hg|].
  split; [reflexivity|]. split; [exact He|]. split; [exact Hy|].
  split; [exact Hey|]. split; [exact Hname|]. split.
  - apply (resume_cycle h rest offender _ e He). rewrite <- Hv. exact Hin.
  - apply (pulls_simulates_until_raise h _ _ _ (root :: out) _ Hs0 Hpe).
Qed.

(** C8, on [main]'s hacker: the first pull returns the hacker, the second
    raises. *)
Lemma C8_error_at_pull_witness :
  employee_generator 0 = GenCreated 0
  ∧ ∃ out rest offender e visited y ey,
      to_list hacker_heap (employee_generator 0)
      = (0 :: out, Propagated cyclic_loop_detected)
      ∧ pulls hacker_heap (S (length out)) (employee_generator 0)
        = (Some ∘ Return <$> 0 :: out)
      ∧ after hacker_heap (S (length out)) (employee_generator 0)
        = GenSuspended (rest ++ [offender]) visited
      ∧ visited
        = list_to_set (omap (λ x, name <$> hacker_heap !! x) (0 :: out))
      ∧ hacker_heap !! offender = Some e
      ∧ y ∈ 0 :: out ∧ hacker_heap !! y = Some ey ∧ name ey = name e
      ∧ generator_next hacker_heap (GenSuspended (rest ++ [offender]) visited)
        = Some (Raise cyclic_loop_detected, GenFinished)
      ∧ pulls hacker_heap (S (S (length out))) (employee_generator 0)
        = (Some ∘ Return <$> 0 :: out)
          ++ [Some (Raise cyclic_loop_detected)].
Proof.
  apply (C8_error_at_pull hacker_heap 0).
  - apply (bool_decide_unpack (closed _)). vm_compute. reflexivity.
  - eexists. reflexivity.
  - exists 0. split; [apply rtc_refl|]. apply tc_once.
    eexists. split; [reflexivity|]. simpl. apply list_elem_of_here.
Defined.

(** C9. Two [EmployeeIterator] instances built over the same root, in any
    store, and advanced in any interleaving: the outcomes each instance
    gives, items and failures alike, are the outcomes it gives when it is
    advanced alone that many times, which are those of the by-value
    class; and a call on one of them leaves the stack and the visited set
    of the other as they were. *)
Theorem C9_independent_cursors (h : heap) (σ0 : Instance.store) (root : ref)
    (sched : list bool) :
  let c1 := (Instance.__init__ σ0 root).1 in
  let σ1 := (Instance.__init__ σ0 root).2 in
  let c2 := (Instance.__init__ σ1 root).1 in
  let σ2 := (Instance.__init__ σ1 root).2 in
  let log := Instance.interleave h σ2 c1 c2 sched in
  let alone (b : bool) :=
    Instance.interleave h σ2 c1 c2 (replicate (Instance.turns b sched) b) in
  Instance.results true log = Instance.results true (alone true)
  ∧ Instance.results false log = Instance.results false (alone false)
  ∧ Instance.results true log
    = pulls h (Instance.turns true sched) (EmployeeIterator.__init__ root)
  ∧ Instance.results false log
    = pulls h (Instance.turns false sched) (EmployeeIterator.__init__ root)
  ∧ ∀ σ σ' o,
      is_Some (Instance.view σ c1) → is_Some (Instance.view σ c2) →
      (Instance.__next__ h σ c1 = Some (o, σ') →
       Instance.view σ' c2 = Instance.view σ c2)
      ∧ (Instance.__next__ h σ c2 = Some (o, σ') →
         Instance.view σ' c1 = Instance.view σ c1).
Proof.
  intros c1 σ1 c2 σ2 log alone.
  destruct (Instance_init_twice σ0 root root) as (Hsep & H1 & H2).
  fold c1 σ1 c2 σ2 in Hsep, H1, H2.
  destruct (interleave_pulls h c1 c2 sched Hsep σ2 _ _ H1 H2) as [Hr1 Hr2].
  destruct (interleave_pulls h c1 c2
              (replicate (Instance.turns true sched) true) Hsep σ2 _ _ H1 H2)
    as [Ha1 _].
  destruct (interleave_pulls h c1 c2
              (replicate (Instance.turns false sched) false) Hsep σ2 _ _ H1 H2)
    as [_ Ha2].
  rewrite turns_replicate in Ha1, Ha2.
  split; [unfold alone, log; now rewrite Ha1|].
  split; [unfold alone, log; now rewrite Ha2|].
  split; [exact Hr1|]. split; [exact Hr2|].
  intros σ σ' o Hv1 Hv2. split; intros Hn.
  - now apply (Instance_next_frame h σ σ' c1 c2 o).
  - apply (Instance_next_frame h σ σ' c2 c1 o); try done.
    now apply Instance_separate_sym.
Qed.

(** C10. When [__next__] raises the cycle error, the offending employee
    has been popped off [employees_to_visit] and [employees_visited] is
    as before (the name was in it, nothing is added). The instance keeps
    no trace of the failure: the next call works on the rest of the stack
    and delivers its top whenever that employee's name is new. So a
    failure need not repeat: on [returning_heap] the second call raises
    and the third delivers John Doe. *)
Theorem C10_next_after_failure :
  (∀ (h : heap) (it it' : EmployeeIterator.t),
     EmployeeIterator.__next__ h it = Some (Raise cyclic_loop_detected, it') →
     (∃ x e,
        EmployeeIterator.employees_to_visit it
        = EmployeeIterator.employees_to_visit it' ++ [x]
        ∧ h !! x = Some e
        ∧ name e ∈ EmployeeIterator.employees_visited it)
     ∧ EmployeeIterator.employees_visited it'
       = EmployeeIterator.employees_visited it
     ∧ ∀ rest y ey,
         EmployeeIterator.employees_to_visit it' = rest ++ [y] →
         h !! y = Some ey →
         name ey ∉ EmployeeIterator.employees_visited it →
         EmployeeIterator.__next__ h it'
         = Some (Return y,
                 {| EmployeeIterator.employees_to_visit :=
                      rest ++ direct_reports ey;
                    EmployeeIterator.employees_visited :=
                      EmployeeIterator.employees_visited it ∪ {[name ey]} |}))
  ∧ pulls returning_heap 3 (EmployeeIterator.__init__ 0)
    = [Some (Return 0); Some (Raise cyclic_loop_detected); Some (Return 1)].
Proof.
  split; [|vm_compute; reflexivity].
  intros h [to_visit visited] it'.
  destruct to_visit as [|x rest _] using rev_ind.
  - rewrite next_empty. discriminate.
  - rewrite next_top. destruct (h !! x) as [e|] eqn:Hx; [|done].
    destruct (decide (name e ∈ visited)) as [Hin|]; [|done].
    intros [= <-]. simpl. split; [|split].
    + now exists x, e.
    + reflexivity.
    + intros rest' y ey -> Hy Hnew. now apply next_deliver.
Qed.

(** C10, on [returning_heap], at the instance the failing call leaves:
    the call after the failure delivers John Doe. *)
Lemma C10_next_after_failure_witness :
  EmployeeIterator.__next__ returning_heap
    {| EmployeeIterator.employees_to_visit := [1];
       EmployeeIterator.employees_visited := {["Max Doe"%string]} |}
  = Some (Return 1,
          {| EmployeeIterator.employees_to_visit := [];
             EmployeeIterator.employees_visited :=
               {["Max Doe"%string]} ∪ {["John Doe"%string]} |}).
Proof.
  refine (proj2 (proj2 (proj1 C10_next_after_failure returning_heap
    {| EmployeeIterator.employees_to_visit := [1; 0];
       EmployeeIterator.employees_visited := {["Max Doe"%string]} |}
    {| EmployeeIterator.employees_to_visit := [1];
       EmployeeIterator.employees_visited := {["Max Doe"%string]} |} _))
    [] 1 {| name := "John Doe"; title := "Software Engineer";
            direct_reports := [] |} _ _ _).
  - vm_compute. reflexivity.
  - reflexivity.
  - reflexivity.
  - vm_compute. intros H. discriminate H.
Defined.

(** * Part V: further properties of the module *)

(** [main] runs to its end: no [assert] fails, the cycle error is caught
    both times, and three lines are printed. *)
Example main_runs :
  main
  = Finished
      ["[<Employee name=Max Doe>, <Employee name=Jane Doe>, <Employee name=John Doe>]"%string;
       "Cyclic loop detected"%string; "Cyclic loop detected"%string].
Proof. vm_compute. reflexivity. Qed.

(** ** What a drain delivers, from any state *)

Lemma consume_generator (h : heap) (fuel : nat) (g : generator) :
  consume h fuel g = consume h fuel (iterator_of g).
Proof.
  destruct g as [root|to_visit visited|]; simpl iterator_of.
  - symmetry. apply consume_simulates, same_state_init.
  - symmetry. apply consume_simulates. now left.
  - destruct fuel; reflexivity.
Qed.

Lemma to_list_generator (h : heap) (g : generator) :
  to_list h g = to_list h (iterator_of g).
Proof. apply consume_generator. Qed.

(** Every employee delivered bears a name that was not visited when the
    drain began. *)
Lemma consume_delivered_new (h : heap) (fuel : nat) :
  ∀ (to_visit : list ref) (visited : gset string) (out : list ref) (en : ending),
    consume h fuel
      {| EmployeeIterator.employees_to_visit := to_visit;
         EmployeeIterator.employees_visited := visited |} = (out, en) →
    Forall (λ y, ∃ ey, h !! y = Some ey ∧ name ey ∉ visited) out.
Proof.
  induction fuel as [|fuel IH]; intros to_visit visited out en.
  - intros [= <- <-]. constructor.
  - destruct to_visit as [|x rest _] using rev_ind.
    + rewrite consume_empty. intros [= <- <-]. constructor.
    + simpl. method_of_next. rewrite next_top.
      destruct (h !! x) as [e|] eqn:Hx; [|intros [= <- <-]; constructor].
      destruct (decide (name e ∈ visited)) as [Hseen|Hnew];
        [intros [= <- <-]; constructor|].
      destruct (consume h fuel _) as [xs en'] eqn:E. intros [= <- <-].
      apply IH in E. constructor; [now exists e|].
      eapply Forall_impl; [exact E|]. simpl.
      intros y (ey & Hy & Hny). exists ey. split; [done|]. set_solver.
Qed.

(** No two employees delivered bear the same name. *)
Lemma consume_delivered_NoDup (h : heap) (fuel : nat) :
  ∀ (to_visit : list ref) (visited : gset string) (out : list ref) (en : ending),
    consume h fuel
      {| EmployeeIterator.employees_to_visit := to_visit;
         EmployeeIterator.employees_visited := visited |} = (out, en) →
    NoDup (names h out).
Proof.
  induction fuel as [|fuel IH]; intros to_visit visited out en.
  - intros [= <- <-]. constructor.
  - destruct to_visit as [|x rest _] using rev_ind.
    + rewrite consume_empty. intros [= <- <-]. constructor.
    + simpl. method_of_next. rewrite next_top.
      destruct (h !! x) as [e|] eqn:Hx; [|intros [= <- <-]; constructor].
      destruct (decide (name e ∈ visited)) as [Hseen|Hnew];
        [intros [= <- <-]; constructor|].
      destruct (consume h fuel _) as [xs en'] eqn:E. intros [= <- <-].
      pose proof (consume_delivered_new h fuel _ _ _ _ E) as Hnewer.
      apply IH in E. unfold names. rewrite fmap_cons, Hx. simpl.
      apply NoDup_cons. split; [|exact E].
      intros Hin. apply list_elem_of_fmap in Hin as (y & Hy & Hyin).
      rewrite Forall_forall in Hnewer.
      destruct (Hnewer y Hyin) as (ey & Hey & Hney).
      rewrite Hey in Hy. simpl in Hy. injection Hy as Hy. set_solver.
Qed.

(** Every employee delivered is reachable from the stack the drain began
    with. *)
Lemma consume_delivered_reachable (h : heap) (fuel : nat) :
  ∀ (to_visit : list ref) (visited : gset string) (out : list ref) (en : ending),
    consume h fuel
      {| EmployeeIterator.employees_to_visit := to_visit;
         EmployeeIterator.employees_visited := visited |} = (out, en) →
    Forall (λ y, ∃ r, r ∈ to_visit ∧ reachable h r y) out.
Proof.
  induction fuel as [|fuel IH]; intros to_visit visited out en.
  - intros [= <- <-]. constructor.
  - destruct to_visit as [|x rest _] using rev_ind.
    + rewrite consume_empty. intros [= <- <-]. constructor.
    + simpl. method_of_next. rewrite next_top.
      destruct (h !! x) as [e|] eqn:Hx; [|intros [= <- <-]; constructor].
      destruct (decide (name e ∈ visited)) as [Hseen|Hnew];
        [intros [= <- <-]; constructor|].
      destruct (consume h fuel _) as [xs en'] eqn:E. intros [= <- <-].
      apply IH in E. constructor.
      * exists x. split; [set_solver|apply rtc_refl].
      * eapply Forall_impl; [exact E|]. simpl.
        intros y (r & Hr & Hry). apply elem_of_app in Hr as [Hr|Hr].
        -- exists r. split; [set_solver|done].
        -- exists x. split; [set_solver|].
           apply rtc_l with r; [now exists e|done].
Qed.

(** A drain delivers at most as many employees as bear a name not yet
    visited. *)
Lemma consume_delivered_bound (h : heap) (fuel : nat) :
  ∀ (to_visit : list ref) (visited : gset string) (out : list ref) (en : ending),
    consume h fuel
      {| EmployeeIterator.employees_to_visit := to_visit;
         EmployeeIterator.employees_visited := visited |} = (out, en) →
    length out ≤ size (unvisited h visited).
Proof.
  induction fuel as [|fuel IH]; intros to_visit visited out en.
  - intros [= <- <-]. simpl. lia.
  - destruct to_visit as [|x rest _] using rev_ind.
    + rewrite consume_empty. intros [= <- <-]. simpl. lia.
    + simpl. method_of_next. rewrite next_top.
      destruct (h !! x) as [e|] eqn:Hx; [|intros [= <- <-]; simpl; lia].
      destruct (decide (name e ∈ visited)) as [Hseen|Hnew];
        [intros [= <- <-]; simpl; lia|].
      destruct (consume h fuel _) as [xs en'] eqn:E. intros [= <- <-].
      apply IH in E. pose proof (unvisited_visit h visited x e Hx Hnew).
      simpl. lia.
Qed.

(** X1. Every drain comes to an end, from whatever state it starts, and
    delivers at most as many employees as the store holds: this holds of
    an instance of the class in any state and of a generator object in
    any state, on every store, cyclic or not. *)
Theorem X1_drain_bounded (h : heap) (it : EmployeeIterator.t) (g : generator) :
  (to_list h it).2 ≠ OutOfFuel
  ∧ length (to_list h it).1 ≤ size h
  ∧ (to_list h g).2 ≠ OutOfFuel
  ∧ length (to_list h g).1 ≤ size h.
Proof.
  assert (∀ it' : EmployeeIterator.t,
            (to_list h it').2 ≠ OutOfFuel
            ∧ length (to_list h it').1 ≤ size h) as Hit.
  { intros [to_visit visited]. split; [apply to_list_iterator_terminates|].
    unfold to_list. destruct (consume h (S (size h)) _) as [out en] eqn:E.
    apply consume_delivered_bound in E. simpl.
    pose proof (unvisited_size h visited). lia. }
  rewrite to_list_generator.
  destruct (Hit it) as [? ?], (Hit (iterator_of g)) as [? ?]. done.
Qed.

(** X2. No name is delivered twice: the employees a drain delivers bear
    pairwise distinct names, so none of them is delivered twice either;
    again from any state of either realisation, and also when the drain
    ends with the cycle error. *)
Theorem X2_delivered_names_distinct (h : heap) (it : EmployeeIterator.t)
    (g : generator) :
  NoDup (names h (to_list h it).1)
  ∧ NoDup (to_list h it).1
  ∧ NoDup (names h (to_list h g).1)
  ∧ NoDup (to_list h g).1.
Proof.
  assert (∀ it' : EmployeeIterator.t, NoDup (names h (to_list h it').1))
    as Hit.
  { intros [to_visit visited]. unfold to_list.
    destruct (consume h (S (size h)) _) as [out en] eqn:E.
    now apply consume_delivered_NoDup in E. }
  rewrite to_list_generator.
  pose proof (Hit it) as H1. pose proof (Hit (iterator_of g)) as H2.
  repeat split; try done; eapply NoDup_fmap_1; eassumption.
Qed.

(** X3. A drain from a root delivers only employees of the store that
    are reachable from the root, and the root comes first (when the root
    is not allocated nothing is delivered). *)
Theorem X3_delivered_reachable (h : heap) (root : ref) :
  Forall (λ y, reachable h root y ∧ is_Some (h !! y))
         (to_list h (EmployeeIterator.__init__ root)).1
  ∧ Forall (λ y, reachable h root y ∧ is_Some (h !! y))
           (to_list h (employee_generator root)).1
  ∧ head (to_list h (EmployeeIterator.__init__ root)).1
    = (λ _, root) <$> h !! root
  ∧ head (to_list h (employee_generator root)).1
    = (λ _, root) <$> h !! root.
Proof.
  rewrite <- (to_list_simulates h _ _ (same_state_init root)).
  assert (Forall (λ y, reachable h root y ∧ is_Some (h !! y))
                 (to_list h (EmployeeIterator.__init__ root)).1) as Hall.
  { unfold to_list, EmployeeIterator.__init__.
    destruct (consume h (S (size h)) _) as [out en] eqn:E. simpl.
    pose proof (consume_delivered_reachable h _ _ _ _ _ E) as Hr.
    pose proof (consume_delivered_new h _ _ _ _ _ E) as Hn.
    rewrite Forall_forall in Hr, Hn |- *. intros y Hy.
    destruct (Hr y Hy) as (r & Hin & Hry), (Hn y Hy) as (ey & Hey & _).
    apply list_elem_of_singleton in Hin as ->. split; [done|now exists ey]. }
  assert (head (to_list h (EmployeeIterator.__init__ root)).1
          = (λ _, root) <$> h !! root) as Hhead.
  { unfold to_list, EmployeeIterator.__init__. simpl. method_of_next.
    rewrite (next_top h [] root ∅).
    destruct (h !! root) as [e|]; [|reflexivity].
    destruct (decide (name e ∈ ∅)) as [Hin|_]; [set_solver|].
    now destruct (consume h (size h) _). }
  done.
Qed.

(** ** When a drain ends normally *)

(** A drain from a root ends normally exactly when the store below the
    root unfolds to a finite tree whose places bear pairwise distinct
    names; what it delivers is then the tree in [order]. *)
Lemma to_list_exhausted_iff (h : heap) (root : ref) (out : list ref) :
  to_list h (EmployeeIterator.__init__ root) = (out, Exhausted)
  ↔ ∃ t, unfolds h root t ∧ NoDup (names h (order t)) ∧ out = order t.
Proof.
  split.
  - intros Hl. pose proof Hl as Hl'. unfold to_list in Hl, Hl'.
    unfold EmployeeIterator.__init__ in Hl, Hl'.
    apply consume_exhausted_unfolds in Hl as (ts & Hts & Hout).
    apply Forall2_cons_inv_l in Hts as (t & ts' & Hu & Hnil & ->).
    apply Forall2_nil_inv_l in Hnil as ->.
    rewrite order_forest_singleton in Hout. subst out.
    exists t. split; [done|]. split; [|done].
    now apply consume_delivered_NoDup in Hl'.
  - intros (t & Hu & Hnd & ->).
    pose proof (consume_unfolds h (S (length (order t))) [root] [t] ∅) as Hc.
    rewrite order_forest_singleton in Hc.
    rewrite (to_list_iterator_consume h (S (length (order t))));
      unfold EmployeeIterator.__init__; rewrite Hc; try done.
    all: try (repeat constructor; done); try lia; set_solver.
Qed.

(** In a store whose references are all allocated a drain ends normally
    or with the cycle error. *)
Lemma to_list_closed_ending (h : heap) (root : ref) :
  closed h → is_Some (h !! root) →
  (to_list h (EmployeeIterator.__init__ root)).2 = Exhausted
  ∨ (to_list h (EmployeeIterator.__init__ root)).2
    = Propagated cyclic_loop_detected.
Proof.
  intros Hc Hroot.
  pose proof (to_list_iterator_terminates h (EmployeeIterator.__init__ root))
    as Hfuel.
  pose proof (consume_allocated h (S (size h)) Hc [root] ∅
                ltac:(repeat constructor; done)) as Halloc.
  unfold to_list, EmployeeIterator.__init__ in *.
  destruct (consume h (S (size h)) _) as [out en] eqn:E.
  simpl in Hfuel, Halloc |- *. destruct en as [|e| |]; try done; [now left|].
  right. now rewrite (consume_propagated h _ _ _ _ E).
Qed.

(** X4. Both realisations end normally exactly on trees with distinct
    names: the drain from a root ends without an exception if and only if
    the store below the root unfolds to a finite tree in which no two
    places bear the same name, and what is delivered is then that tree,
    root first and last child first. *)
Theorem X4_normal_end_iff_tree (h : heap) (root : ref) (out : list ref) :
  (to_list h (EmployeeIterator.__init__ root) = (out, Exhausted)
   ↔ ∃ t, unfolds h root t ∧ NoDup (names h (order t)) ∧ out = order t)
  ∧ (to_list h (employee_generator root) = (out, Exhausted)
     ↔ ∃ t, unfolds h root t ∧ NoDup (names h (order t)) ∧ out = order t).
Proof.
  rewrite <- (to_list_simulates h _ _ (same_state_init root)).
  split; apply to_list_exhausted_iff.
Qed.

(** X5. In a store whose references are all allocated, a drain by either
    realisation ends in one of two ways only: normally, or with
    [IterationError("Cyclic loop detected")]; the guarded [pop] never
    raises [IndexError], and nothing else is raised. The error is raised
    exactly when the store below the root is not a tree with distinct
    names. *)
Theorem X5_normal_or_cycle_error (h : heap) (root : ref) :
  closed h → is_Some (h !! root) →
  let tree_with_distinct_names :=
    ∃ t, unfolds h root t ∧ NoDup (names h (order t)) in
  ((to_list h (EmployeeIterator.__init__ root)).2 = Exhausted
   ∨ (to_list h (EmployeeIterator.__init__ root)).2
     = Propagated cyclic_loop_detected)
  ∧ (to_list h (employee_generator root)).2
    = (to_list h (EmployeeIterator.__init__ root)).2
  ∧ ((to_list h (EmployeeIterator.__init__ root)).2 = Exhausted
     ↔ tree_with_distinct_names)
  ∧ ((to_list h (EmployeeIterator.__init__ root)).2
     = Propagated cyclic_loop_detected
     ↔ ¬ tree_with_distinct_names).
Proof.
  intros Hc Hroot P.
  pose proof (to_list_closed_ending h root Hc Hroot) as Hend.
  assert ((to_list h (EmployeeIterator.__init__ root)).2 = Exhausted ↔ P)
    as Hiff.
  { split.
    - destruct (to_list h (EmployeeIterator.__init__ root)) as [out en] eqn:E.
      simpl. intros ->. apply to_list_exhausted_iff in E as (t & ? & ? & _).
      now exists t.
    - intros (t & Hu & Hnd).
      now rewrite (proj2 (to_list_exhausted_iff h root (order t)))
        by (exists t; done). }
  split; [exact Hend|]. split.
  { now rewrite <- (to_list_simulates h _ _ (same_state_init root)). }
  split; [exact Hiff|]. split.
  - intros Hp HP. apply Hiff in HP. congruence.
  - intros HnP. destruct Hend as [He|Hp]; [|done]. now apply Hiff in He.
Qed.

(** X5, on [diamond_heap]: the drain from the manager ends with the cycle
    error, and the store below the manager is no tree with distinct
    names. *)
Lemma X5_normal_or_cycle_error_witness :
  (to_list diamond_heap (EmployeeIterator.__init__ 0)).2
  = Propagated cyclic_loop_detected
  ↔ ¬ ∃ t, unfolds diamond_heap 0 t ∧ NoDup (names diamond_heap (order t)).
Proof.
  refine (proj2 (proj2 (proj2 (X5_normal_or_cycle_error diamond_heap 0 _ _)))).
  - apply (bool_decide_unpack (closed _)). vm_compute. reflexivity.
  - eexists. reflexivity.
Defined.

(** ** After the end *)

Lemma iterator_stop_iteration (h : heap) (it it' : EmployeeIterator.t) :
  EmployeeIterator.__next__ h it = Some (Raise stop_iteration, it') ↔
  EmployeeIterator.employees_to_visit it = [] ∧ it' = it.
Proof.
  destruct it as [to_visit visited]. simpl. split.
  - destruct to_visit as [|x rest _] using rev_ind.
    + rewrite next_empty. now intros [= <-].
    + rewrite next_top. destruct (h !! x) as [e|]; [|done].
      now destruct (decide (name e ∈ visited)).
  - intros [-> ->]. apply next_empty.
Qed.

Lemma generator_raise_finishes (h : heap) (g g' : generator) (e : exn) :
  generator_next h g = Some (Raise e, g') → g' = GenFinished.
Proof.
  assert (∀ to_visit visited,
    generator_resume h to_visit visited = Some (Raise e, g') →
    g' = GenFinished) as Hres.
  { intros to_visit visited.
    destruct to_visit as [|x rest _] using rev_ind.
    - rewrite resume_empty. now intros [= _ <-].
    - rewrite resume_top. destruct (h !! x) as [ex|]; [|done].
      destruct (decide (name ex ∈ visited)); [|done]. now intros [= _ <-]. }
  destruct g; simpl; eauto. now intros [= _ <-].
Qed.

Lemma pulls_exhausted_iterator (h : heap) (n : nat) (visited : gset string) :
  pulls h n {| EmployeeIterator.employees_to_visit := [];
               EmployeeIterator.employees_visited := visited |}
  = replicate n (Some (Raise stop_iteration)).
Proof. induction n as [|n IH]; [reflexivity|]. simpl. now rewrite IH. Qed.

Lemma after_exhausted_iterator (h : heap) (n : nat) (visited : gset string) :
  after h n {| EmployeeIterator.employees_to_visit := [];
               EmployeeIterator.employees_visited := visited |}
  = {| EmployeeIterator.employees_to_visit := [];
       EmployeeIterator.employees_visited := visited |}.
Proof. induction n as [|n IH]; [reflexivity|]. simpl. now rewrite IH. Qed.

Lemma pulls_finished_generator (h : heap) (n : nat) :
  pulls h n GenFinished = replicate n (Some (Raise stop_iteration)).
Proof. induction n as [|n IH]; [reflexivity|]. simpl. now rewrite IH. Qed.

(** X6. An exhausted [EmployeeIterator] stays exhausted. [__next__]
    raises [StopIteration] exactly when [employees_to_visit] is empty:
    with an empty list it raises [StopIteration], built with no
    argument, and leaves the instance as it was, and it raises no
    [StopIteration] otherwise. So after the first [StopIteration] every
    later call raises [StopIteration] again, and the instance never
    changes. *)
Theorem X6_exhausted_stays_exhausted (h : heap) (it it' : EmployeeIterator.t)
    (e : exn) :
  (EmployeeIterator.__next__ h it = Some (Raise e, it')
   ∧ isinstance e StopIteration = true
   ↔ EmployeeIterator.employees_to_visit it = []
     ∧ e = stop_iteration ∧ it' = it)
  ∧ (EmployeeIterator.employees_to_visit it = [] →
     ∀ n, pulls h n it = replicate n (Some (Raise stop_iteration))
          ∧ after h n it = it).
Proof.
  split; [split|].
  - intros [Hnext Hstop].
    destruct (iterator_raises h it it' e Hnext) as [->| ->]; [|discriminate].
    apply iterator_stop_iteration in Hnext as [Hnil ->]. done.
  - intros (Hnil & -> & ->). split; [|reflexivity].
    now apply iterator_stop_iteration.
  - destruct it as [to_visit visited]. simpl. intros -> n. split.
    + apply pulls_exhausted_iterator.
    + apply after_exhausted_iterator.
Qed.

(** X6, on [main]'s store, at an instance with nothing left to visit. *)
Lemma X6_exhausted_stays_exhausted_witness :
  EmployeeIterator.__next__ main_heap
    {| EmployeeIterator.employees_to_visit := [];
       EmployeeIterator.employees_visited := {["Max Doe"%string]} |}
  = Some (Raise stop_iteration,
          {| EmployeeIterator.employees_to_visit := [];
             EmployeeIterator.employees_visited := {["Max Doe"%string]} |})
  ∧ pulls main_heap 3
      {| EmployeeIterator.employees_to_visit := [];
         EmployeeIterator.employees_visited := {["Max Doe"%string]} |}
    = replicate 3 (Some (Raise stop_iteration)).
Proof.
  pose proof (X6_exhausted_stays_exhausted main_heap
    {| EmployeeIterator.employees_to_visit := [];
       EmployeeIterator.employees_visited := {["Max Doe"%string]} |}
    {| EmployeeIterator.employees_to_visit := [];
       EmployeeIterator.employees_visited := {["Max Doe"%string]} |}
    stop_iteration) as [Hiff Hlater].
  split.
  - exact (proj1 (proj2 Hiff (conj eq_refl (conj eq_refl eq_refl)))).
  - exact (proj1 (Hlater eq_refl 3)).
Defined.

(** X7. A generator object that has raised is finished, whatever it
    raised: after the cycle error, as after the end of the sequence,
    every later [next] raises [StopIteration]. (An instance of the class
    goes on with the rest of its stack after the cycle error.) *)
Theorem X7_generator_finished_after_raise (h : heap) (g g' : generator)
    (e : exn) :
  generator_next h g = Some (Raise e, g') →
  g' = GenFinished
  ∧ ∀ n, pulls h n g' = replicate n (Some (Raise stop_iteration)).
Proof.
  intros Hnext. apply generator_raise_finishes in Hnext as ->.
  split; [reflexivity|]. apply pulls_finished_generator.
Qed.

(** X7, on [returning_heap]: the generator raises the cycle error on the
    second pull and [StopIteration] from then on, where the class
    delivers John Doe on the third call. *)
Lemma X7_generator_finished_after_raise_witness :
  pulls returning_heap 3 GenFinished
  = replicate 3 (Some (Raise stop_iteration)).
Proof.
  refine (proj2 (X7_generator_finished_after_raise returning_heap
    (GenSuspended [1; 0] {["Max Doe"%string]}) GenFinished
    cyclic_loop_detected _) 3).
  vm_compute. reflexivity.
Defined.

Lemma consume_end_iterator (h : heap) (fuel : nat) :
  ∀ it : EmployeeIterator.t,
    (consume h fuel it).2 = Exhausted →
    EmployeeIterator.employees_to_visit (consume_end h fuel it) = [].
Proof.
  induction fuel as [|fuel IH]; intros it; [discriminate|].
  simpl. method_of_next.
  destruct (EmployeeIterator.__next__ h it) as [[[x|e] it']|] eqn:E;
    [| |discriminate].
  - specialize (IH it'). destruct (consume h fuel it'). simpl in *. exact IH.
  - destruct (iterator_raises h it it' e E) as [->| ->]; [|discriminate].
    intros _. apply iterator_stop_iteration in E as [Hnil ->]. exact Hnil.
Qed.

Lemma consume_end_generator (h : heap) (fuel : nat) :
  ∀ g : generator,
    (consume h fuel g).2 ≠ OutOfFuel → (consume h fuel g).2 ≠ Unallocated →
    consume_end h fuel g = GenFinished.
Proof.
  induction fuel as [|fuel IH]; intros g; [done|].
  simpl. method_of_next.
  destruct (generator_next h g) as [[[x|e] g']|] eqn:E; [| |done].
  - specialize (IH g'). destruct (consume h fuel g'). simpl in *. exact IH.
  - intros _ _. now apply generator_raise_finishes in E.
Qed.

(** X8. Both realisations are single-pass. [__iter__] hands out the
    instance itself, so a second loop over an [EmployeeIterator] that a
    first loop has exhausted delivers nothing; and a second loop over a
    generator object delivers nothing whether the first loop ended
    normally or with the cycle error. *)
Theorem X8_single_pass (h : heap) (it : EmployeeIterator.t) (g : generator) :
  ((to_list h (EmployeeIterator.__iter__ it)).2 = Exhausted →
   to_list h (EmployeeIterator.__iter__
                (consume_end h (S (size h)) (EmployeeIterator.__iter__ it)))
   = ([], Exhausted))
  ∧ ((to_list h g).2 ≠ Unallocated →
     to_list h (consume_end h (S (size h)) g) = ([], Exhausted)).
Proof.
  split.
  - intros Hend. apply consume_end_iterator in Hend.
    unfold EmployeeIterator.__iter__ in *.
    destruct (consume_end h (S (size h)) it) as [to_visit visited].
    simpl in Hend. subst to_visit. reflexivity.
  - intros Halloc. rewrite consume_end_generator; [reflexivity| |exact Halloc].
    rewrite consume_generator. apply to_list_iterator_terminates.
Qed.

(** X8, on [main]'s store and on [main]'s hacker. *)
Lemma X8_single_pass_witness :
  to_list main_heap
    (EmployeeIterator.__iter__
       (consume_end main_heap 4
          (EmployeeIterator.__iter__ (EmployeeIterator.__init__ 0))))
  = ([], Exhausted)
  ∧ to_list hacker_heap (consume_end hacker_heap 2 (employee_generator 0))
    = ([], Exhausted).
Proof.
  split.
  - apply (proj1 (X8_single_pass main_heap (EmployeeIterator.__init__ 0)
                    GenFinished)).
    vm_compute. reflexivity.
  - apply (proj2 (X8_single_pass hacker_heap (EmployeeIterator.__init__ 0)
                    (employee_generator 0))).
    vm_compute. intros H. discriminate H.
Defined.

(** ** The visited set *)

(** Each call that returns an employee adds that employee's name, and no
    other call adds anything. *)
Lemma after_visited (h : heap) (n : nat) :
  ∀ it : EmployeeIterator.t,
    EmployeeIterator.employees_visited (after h n it)
    = EmployeeIterator.employees_visited it
      ∪ list_to_set (omap (λ x, name <$> h !! x) (returned (pulls h n it))).
Proof.
  induction n as [|n IH]; intros [to_visit visited]; simpl.
  - set_solver.
  - method_of_next. destruct to_visit as [|x rest _] using rev_ind.
    + rewrite next_empty. rewrite IH. reflexivity.
    + rewrite next_top. destruct (h !! x) as [e|] eqn:Hx.
      * destruct (decide (name e ∈ visited)); rewrite IH; simpl.
        -- reflexivity.
        -- unfold returned. simpl. rewrite Hx. simpl. set_solver.
      * rewrite IH. reflexivity.
Qed.

(** X9. [employees_visited] holds exactly the names of the employees
    delivered so far: after any number of calls of [__next__] on a new
    instance, whatever they returned or raised, the set is the set of the
    names of the employees the calls returned. *)
Theorem X9_visited_is_names_delivered (h : heap) (root : ref) (n : nat) :
  EmployeeIterator.employees_visited
    (after h n (EmployeeIterator.__init__ root))
  = list_to_set
      (omap (λ x, name <$> h !! x)
            (returned (pulls h n (EmployeeIterator.__init__ root)))).
Proof. rewrite after_visited. simpl. set_solver. Qed.

(** ** Building the graph *)

Section constructor.
Context (h : heap) (n t : string) (reports : list ref).
Local Abbreviation self := ((EmployeeClass.__init__ h n t reports).1).
Local Abbreviation h' := ((EmployeeClass.__init__ h n t reports).2).

Lemma init_fresh : h !! self = None.
Proof. apply not_elem_of_dom, is_fresh. Qed.

Lemma init_lookup_self :
  h' !! self = Some {| name := n; title := t; direct_reports := reports |}.
Proof. apply lookup_insert_eq. Qed.

Lemma init_lookup_other (a : ref) : a ≠ self → h' !! a = h !! a.
Proof. intros Hne. now apply lookup_insert_ne. Qed.

Lemma init_allocated (a : ref) : is_Some (h !! a) → is_Some (h' !! a).
Proof.
  intros Ha. rewrite init_lookup_other; [done|].
  intros ->. rewrite init_fresh in Ha. now destruct Ha.
Qed.

(** An employee that was there before has the direct reports it had, and
    all of them were there before. *)
Lemma init_edge_old (a b : ref) :
  closed h → is_Some (h !! a) → edge h' a b → edge h a b ∧ is_Some (h !! b).
Proof.
  intros Hc Ha (e & He & Hb).
  rewrite init_lookup_other in He.
  - split; [now exists e|].
    pose proof (closed_reports h a e Hc He) as Hall.
    unfold allocated in Hall. rewrite Forall_forall in Hall. now apply Hall.
  - intros ->. rewrite init_fresh in Ha. now destruct Ha.
Qed.

Lemma init_tc_old (a b : ref) :
  closed h → is_Some (h !! a) → tc (edge h') a b →
  tc (edge h) a b ∧ is_Some (h !! b).
Proof.
  intros Hc Ha Htc. induction Htc as [a b Hab|a y b Hay _ IH].
  - destruct (init_edge_old a b Hc Ha Hab) as [He Hb].
    split; [now apply tc_once|done].
  - destruct (init_edge_old a y Hc Ha Hay) as [He Hy].
    destruct (IH Hy) as [Htc Hb]. split; [now apply tc_l with y|done].
Qed.

Lemma init_edge_self (b : ref) :
  allocated h reports → edge h' self b → is_Some (h !! b).
Proof.
  intros Hall (e & He & Hb). rewrite init_lookup_self in He.
  injection He as <-. simpl in Hb.
  unfold allocated in Hall. rewrite Forall_forall in Hall. now apply Hall.
Qed.

Lemma init_closed : closed h → allocated h reports → closed h'.
Proof.
  intros Hc Hall. unfold closed. simpl.
  apply map_Forall_insert; [apply init_fresh|]. split.
  - simpl. eapply Forall_impl; [exact Hall|]. apply init_allocated.
  - intros a e He. simpl.
    eapply Forall_impl; [exact (closed_reports h a e Hc He)|].
    apply init_allocated.
Qed.

Lemma init_acyclic :
  closed h → allocated h reports → (∀ a, ¬ tc (edge h) a a) →
  ∀ a, ¬ tc (edge h') a a.
Proof.
  intros Hc Hall Hacyc a Htc.
  destruct (decide (a = self)) as [->|Hne].
  - assert (is_Some (h !! self)) as Hself.
    { inversion Htc as [x y Hxy|x y z Hxy Hyz]; subst.
      - now apply init_edge_self.
      - apply init_edge_self in Hxy; [|done].
        now destruct (init_tc_old y self Hc Hxy Hyz). }
    rewrite init_fresh in Hself. now destruct Hself.
  - assert (is_Some (h !! a)) as Ha.
    { assert (is_Some (h' !! a)) as Ha'.
      { inversion Htc as [x y (e & He & _)|x y z (e & He & _) _]; subst;
          now exists e. }
      now rewrite init_lookup_other in Ha'. }
    destruct (init_tc_old a a Hc Ha Htc) as [Htc' _].
    now apply (Hacyc a).
Qed.

End constructor.

(** X10. [Employee(name, title, direct_reports)] alone never makes a
    cycle. In a store whose references are all allocated and that has no
    cycle, building an employee over allocated direct reports takes a
    reference that was free, leaves every other employee as it was, and
    gives a store whose references are again all allocated and that again
    has no cycle: a cycle takes a later write to [direct_reports], as in
    [main]. *)
Theorem X10_constructor_keeps_acyclic (h : heap) (n t : string)
    (reports : list ref) :
  closed h → allocated h reports → (∀ a, ¬ tc (edge h) a a) →
  let self := (EmployeeClass.__init__ h n t reports).1 in
  let h' := (EmployeeClass.__init__ h n t reports).2 in
  h !! self = None
  ∧ h' !! self = Some {| name := n; title := t; direct_reports := reports |}
  ∧ (∀ a, a ≠ self → h' !! a = h !! a)
  ∧ closed h'
  ∧ (∀ a, ¬ tc (edge h') a a).
Proof.
  intros Hc Hall Hacyc self h'. split; [apply init_fresh|].
  split; [apply init_lookup_self|]. split; [apply init_lookup_other|].
  split; [now apply init_closed|now apply init_acyclic].
Qed.

Lemma empty_heap_acyclic (a : ref) : ¬ tc (edge (∅ : heap)) a a.
Proof.
  intros Htc.
  inversion Htc as [x y (e & He & _)|x y z (e & He & _) _]; subst;
    now rewrite lookup_empty in He.
Qed.

(** X10, on [main]'s first two calls: John Doe built in the empty store,
    then Jane Doe. *)
Lemma X10_constructor_keeps_acyclic_witness :
  let h1 := (EmployeeClass.__init__ ∅ "John Doe" "Software Engineer" []).2 in
  let jane := (EmployeeClass.__init__ h1 "Jane Doe" "Software Engineer" []).1 in
  let h2 := (EmployeeClass.__init__ h1 "Jane Doe" "Software Engineer" []).2 in
  h1 !! jane = None
  ∧ h2 !! jane = Some {| name := "Jane Doe"; title := "Software Engineer";
                         direct_reports := [] |}
  ∧ (∀ a, a ≠ jane → h2 !! a = h1 !! a)
  ∧ closed h2
  ∧ (∀ a, ¬ tc (edge h2) a a).
Proof.
  pose proof (X10_constructor_keeps_acyclic ∅ "John Doe" "Software Engineer" []
                (map_Forall_empty _) (Forall_nil_2 _) empty_heap_acyclic)
    as (_ & _ & _ & Hc1 & Ha1).
  exact (X10_constructor_keeps_acyclic _ "Jane Doe" "Software Engineer" []
           Hc1 (Forall_nil_2 _) Ha1).
Defined.

(** ** The hacker *)

Lemma append_report_lookup (h : heap) (x r : ref) (e : Employee) :
  h !! x = Some e →
  append_report h x r !! x
  = Some {| name := name e; title := title e;
            direct_reports := direct_reports e ++ [r] |}.
Proof. intros Hx. unfold append_report. now rewrite lookup_alter_eq, Hx. Qed.

(** Once an employee is the last of their own direct reports, a drain
    from them delivers them and fails. *)
Lemma to_list_self_report (h : heap) (x : ref) (e : Employee) :
  h !! x = Some e →
  to_list (append_report h x x) (EmployeeIterator.__init__ x)
  = ([x], Propagated cyclic_loop_detected).
Proof.
  intros Hx. pose proof (append_report_lookup h x x e Hx) as Hx'.
  assert (consume (append_report h x x) 2 (EmployeeIterator.__init__ x)
          = ([x], Propagated cyclic_loop_detected)) as Hc.
  { unfold EmployeeIterator.__init__.
    rewrite (consume_deliver _ 1 [] x ∅ _ Hx') by set_solver.
    simpl direct_reports. simpl name. rewrite app_nil_l.
    rewrite (consume_cycle _ 0 (direct_reports e) x _ _ Hx') by set_solver.
    reflexivity. }
  rewrite (to_list_iterator_consume _ 2); rewrite Hc; done.
Qed.

(** X11. [x.direct_reports.append(x)] makes every traversal from [x]
    fail at once: whatever [x]'s direct reports were before, both
    realisations deliver [x] and raise the cycle error on the next pull,
    and [main]'s loop over the two callables catches it both times,
    prints its text twice and ends normally. *)
Theorem X11_self_report_fails (h : heap) (x : ref) (e : Employee)
    (stdout : list string) :
  h !! x = Some e →
  let h' := append_report h x x in
  to_list h' (EmployeeIterator.__init__ x)
  = ([x], Propagated cyclic_loop_detected)
  ∧ to_list h' (employee_generator x)
    = ([x], Propagated cyclic_loop_detected)
  ∧ main_try h' x [Use_EmployeeIterator; Use_employee_generator] stdout
    = Finished (stdout ++ ["Cyclic loop detected"%string;
                           "Cyclic loop detected"%string]).
Proof.
  intros Hx h'. pose proof (to_list_self_report h x e Hx) as Hi.
  fold h' in Hi.
  assert (to_list h' (employee_generator x)
          = ([x], Propagated cyclic_loop_detected)) as Hg.
  { now rewrite <- (to_list_simulates h' _ _ (same_state_init x)). }
  split; [exact Hi|]. split; [exact Hg|].
  simpl. unfold EmployeeIterator.__iter__. rewrite Hi, Hg. simpl.
  now rewrite <- app_assoc.
Qed.

(** X11, on [main]'s hacker, built without direct reports. *)
Lemma X11_self_report_fails_witness :
  let h := <[0 := {| name := "Unknown"; title := "Hacker";
                     direct_reports := [] |}]> (∅ : heap) in
  to_list (append_report h 0 0) (EmployeeIterator.__init__ 0)
  = ([0], Propagated cyclic_loop_detected)
  ∧ to_list (append_report h 0 0) (employee_generator 0)
    = ([0], Propagated cyclic_loop_detected)
  ∧ main_try (append_report h 0 0) 0
      [Use_EmployeeIterator; Use_employee_generator] []
    = Finished ["Cyclic loop detected"%string; "Cyclic loop detected"%string].
Proof.
  exact (X11_self_report_fails _ 0 _ [] (lookup_insert_eq _ _ _)).
Defined.

(** ** What is printed *)

Lemma string_length_app (a b : string) :
  String.length (a +:+ b) = String.length a + String.length b.
Proof. induction a as [|c a IH]; simpl; [reflexivity|now rewrite IH]. Qed.

Lemma string_app_inv_tail (a b c : string) : a +:+ c = b +:+ c → a = b.
Proof.
  revert b. induction a as [|x a IH]; intros [|y b] Heq; simpl in Heq.
  - reflexivity.
  - apply (f_equal String.length) in Heq.
    rewrite !string_length_app in Heq. simpl in Heq. lia.
  - apply (f_equal String.length) in Heq.
    rewrite !string_length_app in Heq. simpl in Heq. lia.
  - injection Heq as -> Heq. f_equal. now apply IH.
Qed.

(** X12. [__repr__] shows the name and nothing else: two employees have
    the same [repr] exactly when they have the same name, whatever their
    titles and direct reports, and whatever characters the names
    hold. *)
Theorem X12_repr_shows_name (e1 e2 : Employee) :
  EmployeeClass.__repr__ e1 = EmployeeClass.__repr__ e2 ↔ name e1 = name e2.
Proof.
  unfold EmployeeClass.__repr__. split; [|now intros ->].
  intros Heq. apply String.app_inj in Heq.
  now apply string_app_inv_tail in Heq.
Qed.

(** ** The assertions of [main] *)





(** ** Calls of [next] followed by a loop *)

(** When the first [n] calls return employees, a loop over the object
    from the start delivers those and then what a loop over the object
    after the calls delivers. *)
Lemma consume_after_pulls {S : Type} `{Iterator S} (h : heap) (fuel : nat) :
  ∀ (n : nat) (s : S) (xs : list ref),
    pulls h n s = (Some ∘ Return <$> xs) →
    consume h (n + fuel) s
    = ((xs ++ (consume h fuel (after h n s)).1),
       (consume h fuel (after h n s)).2).
Proof.
  induction n as [|n IH]; intros s xs Hp.
  - destruct xs; [|discriminate]. simpl. now destruct (consume h fuel s).
  - simpl in Hp |- *. destruct (next h s) as [[o s']|]; [|now destruct xs].
    destruct xs as [|x xs]; [discriminate|]. simpl in Hp.
    injection Hp as -> Hp. rewrite (IH s' xs Hp). reflexivity.
Qed.

Lemma to_list_generator_consume (h : heap) (fuel : nat) (g : generator) :
  (consume h fuel g).2 ≠ OutOfFuel → to_list h g = consume h fuel g.
Proof.
  rewrite to_list_generator, consume_generator.
  apply to_list_iterator_consume.
Qed.

(** X14. Calls of [next] and a loop compose: when the first [n] calls on
    an object return the employees [xs], [list] of the object from the
    start is [xs] followed by [list] of the object as the calls left it,
    and it ends as that one ends. This holds of an instance of the class
    and of a generator object, in any state. *)
Theorem X14_next_then_loop (h : heap) (n : nat) (xs : list ref)
    (it : EmployeeIterator.t) (g : generator) :
  (pulls h n it = (Some ∘ Return <$> xs) →
   to_list h it
   = (xs ++ (to_list h (after h n it)).1, (to_list h (after h n it)).2))
  ∧ (pulls h n g = (Some ∘ Return <$> xs) →
     to_list h g
     = (xs ++ (to_list h (after h n g)).1, (to_list h (after h n g)).2)).
Proof.
  split; intros Hp.
  - rewrite (to_list_iterator_consume h (n + S (size h)));
      rewrite (consume_after_pulls h (S (size h)) n it xs Hp); [done|].
    apply to_list_iterator_terminates.
  - rewrite (to_list_generator_consume h (n + S (size h)));
      rewrite (consume_after_pulls h (S (size h)) n g xs Hp); [done|].
    cbn [snd]. rewrite consume_generator.
    apply (to_list_iterator_terminates h).
Qed.

(** X14, on [main]'s store: after one call, which returns the manager,
    the loop delivers the two direct reports. *)
Lemma X14_next_then_loop_witness :
  to_list main_heap (EmployeeIterator.__init__ 0)
  = ([0] ++ (to_list main_heap
               (after main_heap 1 (EmployeeIterator.__init__ 0))).1,
     (to_list main_heap (after main_heap 1 (EmployeeIterator.__init__ 0))).2)
  ∧ to_list main_heap (after main_heap 1 (EmployeeIterator.__init__ 0))
    = ([2; 1], Exhausted).
Proof.
  split; [|vm_compute; reflexivity].
  apply (proj1 (X14_next_then_loop main_heap 1 [0]
                  (EmployeeIterator.__init__ 0) GenFinished)).
  vm_compute. reflexivity.
Defined.

(** ** What a traversal reads *)

(** Two stores that agree on everything reachable from the stack give
    the same drain. *)
Lemma consume_agree (h1 h2 : heap) (fuel : nat) :
  ∀ (to_visit : list ref) (visited : gset string),
    (∀ r y, r ∈ to_visit → reachable h1 r y → h1 !! y = h2 !! y) →
    consume h1 fuel
      {| EmployeeIterator.employees_to_visit := to_visit;
         EmployeeIterator.employees_visited := visited |}
    = consume h2 fuel
        {| EmployeeIterator.employees_to_visit := to_visit;
           EmployeeIterator.employees_visited := visited |}.
Proof.
  induction fuel as [|fuel IH]; intros to_visit visited Hagree; [reflexivity|].
  destruct to_visit as [|x rest _] using rev_ind.
  - now rewrite !consume_empty.
  - assert (h1 !! x = h2 !! x) as Hx.
    { apply (Hagree x x); [set_solver|apply rtc_refl]. }
    simpl. method_of_next. rewrite !next_top, <- Hx.
    destruct (h1 !! x) as [e|] eqn:He; [|reflexivity].
    destruct (decide (name e ∈ visited)); [reflexivity|].
    rewrite (IH (rest ++ direct_reports e) (visited ∪ {[name e]}));
      [reflexivity|].
    intros r y Hr Hry. apply elem_of_app in Hr as [Hr|Hr].
    + apply (Hagree r y); [set_solver|done].
    + apply (Hagree x y); [set_solver|].
      apply rtc_l with r; [now exists e|done].
Qed.

(** X15. A traversal reads only what is reachable from its root: two
    stores that hold the same employees at every reference reachable from
    the root give the same drain, with both realisations, whatever else
    they hold. Employees built, changed or dropped elsewhere do not show
    in the traversal. *)
Theorem X15_reads_reachable_only (h1 h2 : heap) (root : ref) :
  (∀ y, reachable h1 root y → h1 !! y = h2 !! y) →
  to_list h1 (EmployeeIterator.__init__ root)
  = to_list h2 (EmployeeIterator.__init__ root)
  ∧ to_list h1 (employee_generator root)
    = to_list h2 (employee_generator root).
Proof.
  intros Hagree.
  assert (to_list h1 (EmployeeIterator.__init__ root)
          = to_list h2 (EmployeeIterator.__init__ root)) as Hi.
  { symmetry. rewrite (to_list_iterator_consume h2 (S (size h1))).
    - symmetry. apply consume_agree. intros r y Hr Hry.
      apply list_elem_of_singleton in Hr as ->. now apply Hagree.
    - unfold EmployeeIterator.__init__.
      rewrite <- (consume_agree h1 h2 (S (size h1)) [root] ∅).
      + apply (to_list_iterator_terminates h1).
      + intros r y Hr Hry. apply list_elem_of_singleton in Hr as ->.
        now apply Hagree. }
  split; [exact Hi|].
  now rewrite <- !(to_list_simulates _ _ _ (same_state_init root)).
Qed.

(** X15, on [main]'s store and the same store with one more employee,
    whom nobody has as a direct report. *)
Lemma X15_reads_reachable_only_witness :
  let h2 := <[7 := {| name := "Max Doe"; title := "Auditor";
                      direct_reports := [0] |}]> main_heap in
  to_list main_heap (EmployeeIterator.__init__ 0)
  = to_list h2 (EmployeeIterator.__init__ 0)
  ∧ to_list main_heap (employee_generator 0)
    = to_list h2 (employee_generator 0).
Proof.
  apply (X15_reads_reachable_only main_heap).
  intros y Hy. rewrite lookup_insert_ne; [reflexivity|]. intros <-.
  assert (unfolds main_heap 0 (Node 0 [Node 1 []; Node 2 []])) as Hu.
  { repeat (eapply unfolds_Node; [reflexivity|]; simpl; repeat constructor). }
  apply (order_reachable _ _ _ Hu) in Hy. simpl in Hy. set_solver.
Defined.
